(** * Tablature organizer: the classifier and the file placer of
    [organize_tablatures.py], embedded as Rocq functions.

    Python strings are sequences of Unicode code points, so a character is a
    code point ([N]) and a string a list of them.  The character classes that
    the program reaches through [re] and [str.title] are written out for the
    ASCII range and for white space; what the Unicode database says about the
    other code points is a table the definitions take as a parameter. *)

From Stdlib Require Import NArith List String Ascii Bool Lia.
From stdpp Require Import gmap list.

Set Default Proof Using "Type".

(** ** Characters and strings *)

Definition char := N.
Definition text := list char.

(** A string literal as code points. *)
Definition str (s : string) : text := map N_of_ascii (list_ascii_of_string s).

Definition in_range (lo hi c : N) : bool := ((lo <=? c) && (c <=? hi))%N.

Definition is_ascii (c : char) : bool := (c <? 128)%N.

(** [str.isspace], which is also what [\s] matches in a [str] pattern. *)
Definition is_space (c : char) : bool :=
  in_range 9 13 c || in_range 28 32 c || (c =? 133)%N || (c =? 160)%N
  || (c =? 5760)%N || in_range 8192 8202 c || (c =? 8232)%N || (c =? 8233)%N
  || (c =? 8239)%N || (c =? 8287)%N || (c =? 12288)%N.

(** [.] without [re.DOTALL]: every character but the line feed. *)
Definition is_dot (c : char) : bool := negb (c =? 10)%N.

Definition ascii_upper (c : char) : bool := in_range 65 90 c.
Definition ascii_lower (c : char) : bool := in_range 97 122 c.
Definition ascii_digit (c : char) : bool := in_range 48 57 c.

(** The Unicode character database, for the code points that are neither
    ASCII nor white space: alphanumeric ([\w]), cased, and the full lower and
    title case mappings.  The lower case mapping sees the characters before
    (nearest first) and after the one it maps: CPython's final-sigma rule. *)
Record ucd := {
  u_alnum : char -> bool;
  u_cased : char -> bool;
  u_lower : text -> char -> text -> text;
  u_title : char -> text
}.

(** [\w] in a [str] pattern: alphanumeric or the underscore. *)
Definition is_word (U : ucd) (c : char) : bool :=
  if is_ascii c then ascii_upper c || ascii_lower c || ascii_digit c || (c =? 95)%N
  else if is_space c then false
  else u_alnum U c.

Definition cased (U : ucd) (c : char) : bool :=
  if is_ascii c then ascii_upper c || ascii_lower c
  else if is_space c then false
  else u_cased U c.

Definition to_title (U : ucd) (c : char) : text :=
  if is_ascii c then [if ascii_lower c then (c - 32)%N else c]
  else if is_space c then [c]
  else u_title U c.

Definition to_lower (U : ucd) (before : text) (c : char) (after : text) : text :=
  if is_ascii c then [if ascii_upper c then (c + 32)%N else c]
  else if is_space c then [c]
  else u_lower U before c after.

(** [str.title]: a character that follows a cased character is lower-cased,
    any other character is title-cased. *)
Fixpoint do_title (U : ucd) (before : text) (previous_is_cased : bool) (s : text) : text :=
  match s with
  | [] => []
  | c :: rest =>
      (if previous_is_cased then to_lower U before c rest else to_title U c)
        ++ do_title U (c :: before) (cased U c) rest
  end.

Definition title (U : ucd) (s : text) : text := do_title U [] false s.

(** ** The regular expressions

    The three patterns of the program are sequences of the items below; the
    matcher is a backtracking one and lists the ways to match in the order
    [re] tries them, so that the first one is the match [re] reports. *)

Inductive item :=
| Bol                                          (* ^ *)
| Eol                                          (* $ *)
| One (p : char -> bool)                       (* one character of a class *)
| Many1 (p : char -> bool) (greedy : bool)     (* p+ and p+? *)
| Capture (p : char -> bool) (greedy : bool).  (* (p+) and (p+?) *)

(** The captured groups and the text left after the match. *)
Definition result := (list text * text)%type.

Fixpoint many1 (p : char -> bool) (greedy : bool) (k : text -> text -> list result)
    (taken : text) (s : text) : list result :=
  match s with
  | [] => []
  | c :: s' =>
      if p c then
        let stop := k (taken ++ [c]) s' in
        let more := many1 p greedy k (taken ++ [c]) s' in
        if greedy then more ++ stop else stop ++ more
      else []
  end.

Fixpoint exec (r : list item) (start : bool) (groups : list text) (s : text) : list result :=
  match r with
  | [] => [(groups, s)]
  | Bol :: r' => if start then exec r' start groups s else []
  | Eol :: r' =>
      match s with
      | [] => exec r' start groups s
      | [c] => if (c =? 10)%N then exec r' start groups s else []
      | _ => []
      end
  | One p :: r' =>
      match s with
      | c :: s' => if p c then exec r' false groups s' else []
      | [] => []
      end
  | Many1 p g :: r' => many1 p g (fun _ s' => exec r' false groups s') [] s
  | Capture p g :: r' => many1 p g (fun t s' => exec r' false (groups ++ [t]) s') [] s
  end.

Definition at_end (x : result) : bool :=
  match snd x with [] => true | _ => false end.

(** [re.match]: the first way to match a prefix of [s]. *)
Definition re_match (r : list item) (s : text) : option result :=
  head (exec r true [] s).

(** [re.fullmatch]: the first way to match that uses up [s]. *)
Definition re_fullmatch (r : list item) (s : text) : option result :=
  List.find at_end (exec r true [] s).

Definition lit (x : char) : char -> bool := N.eqb x.

(** A lower-case ASCII letter under [(?i)]. *)
Definition lit_i (x : char) (c : char) : bool := (c =? x)%N || (c =? x - 32)%N.

(** [(.+)\s-\s.+[.]{1}\w+$] *)
Definition tablature_regex (U : ucd) : list item :=
  [Capture is_dot true; One is_space; One (lit 45%N); One is_space;
   Many1 is_dot true; One (lit 46%N); Many1 (is_word U) true; Eol].

(** [(.+?)\s-\s] *)
Definition artist_regex : list item :=
  [Capture is_dot false; One is_space; One (lit 45%N); One is_space].

(** [(?i)^the\s+(.+)] *)
Definition the_regex : list item :=
  [Bol; One (lit_i 116%N); One (lit_i 104%N); One (lit_i 101%N);
   Many1 is_space true; Capture is_dot true].

(** ** FilenameClassifier *)

Inductive exn :=
| ValueError
| FileExistsError
| FileNotFoundError
| NotADirectoryError
| IsADirectoryError
| PermissionError
| SystemExit (code : N).

Definition group1 (x : result) : text := List.hd [] (fst x).

Definition reformat_artist (U : ucd) (name : text) : text :=
  match re_match the_regex name with
  | Some m => title U (group1 m) ++ str ", The"
  | None => title U name
  end.

Definition get_artist (U : ucd) (filename : text) : exn + text :=
  match re_match artist_regex filename with
  | None => inl ValueError
  | Some m => inr (reformat_artist U (group1 m))
  end.

(** ** Paths ([pathlib.PurePosixPath])

    A path is its root (the number of leading slashes [pathlib] keeps: 0, 1
    or 2) and its components, the last one first, so that the parent of a
    path is the tail of its components. *)

Record Path := mkPath { root : N; rparts : list text }.

#[global] Instance Path_eq_dec : EqDecision Path.
Proof. solve_decision. Defined.

#[global] Instance Path_countable : Countable Path :=
  inj_countable' (fun p => (root p, rparts p)) (fun x => mkPath (fst x) (snd x))
    (fun p => match p with mkPath _ _ => eq_refl end).

Definition slash : char := 47%N.
Definition dot : text := [46%N].
Definition dotdot : text := [46%N; 46%N].

(** [s.split("/")] *)
Fixpoint split_slash (s : text) : list text :=
  match s with
  | [] => [[]]
  | c :: s' =>
      if (c =? slash)%N then [] :: split_slash s'
      else match split_slash s' with
           | w :: ws => (c :: w) :: ws
           | [] => [[c]]
           end
  end.

Fixpoint lstrip_slash (s : text) : nat * text :=
  match s with
  | c :: s' => if (c =? slash)%N then let x := lstrip_slash s' in (S (fst x), snd x) else (O, s)
  | [] => (O, [])
  end.

Definition kept_part (x : text) : bool :=
  negb (bool_decide (x = [])) && negb (bool_decide (x = dot)).

(** [Path(s)]: two leading slashes are kept, any other number is one; empty
    components and [.] are dropped. *)
Definition parse (s : text) : Path :=
  let x := lstrip_slash s in
  {| root := match fst x with O => 0 | 2 => 2 | _ => 1 end;
     rparts := rev (List.filter kept_part (split_slash (snd x))) |}.

Definition joinpath (p : Path) (s : text) : Path :=
  let q := parse s in
  if (root q =? 0)%N then {| root := root p; rparts := rparts q ++ rparts p |} else q.

Definition name (p : Path) : text := List.hd [] (rparts p).

Definition parent (p : Path) : Path := {| root := root p; rparts := List.tl (rparts p) |}.

(** [p.parents]: the proper ancestors, the nearest first. *)
Fixpoint ancestors (rt : N) (rp : list text) : list Path :=
  match rp with
  | [] => []
  | _ :: up => mkPath rt up :: ancestors rt up
  end.

Definition parents (p : Path) : list Path := ancestors (root p) (rparts p).

(** [s.rfind(".")] *)
Fixpoint rfind_dot (s : text) : option nat :=
  match s with
  | [] => None
  | c :: s' =>
      match rfind_dot s' with
      | Some i => Some (S i)
      | None => if (c =? 46)%N then Some O else None
      end
  end.

Definition splits_name (nm : text) : option nat :=
  match rfind_dot nm with
  | Some i => if (0 <? i)%nat && (i <? length nm - 1)%nat then Some i else None
  | None => None
  end.

Definition suffix (p : Path) : text :=
  match splits_name (name p) with Some i => drop i (name p) | None => [] end.

Definition stem (p : Path) : text :=
  match splits_name (name p) with Some i => take i (name p) | None => name p end.

(** ** The clock and [strftime] *)

Record datetime := {
  year : N; month : N; day : N; hour : N; minute : N; second : N
}.

Fixpoint decimal_digits (fuel : nat) (n : N) (acc : text) : text :=
  match fuel with
  | O => acc
  | S fuel' =>
      let acc' := (48 + n mod 10)%N :: acc in
      if (n <? 10)%N then acc' else decimal_digits fuel' (n / 10)%N acc'
  end.

Definition decimal (n : N) : text := decimal_digits (S (N.size_nat n)) n [].

Definition zfill (width : nat) (t : text) : text := repeat 48%N (width - length t) ++ t.

(** [strftime("_%d%m%Y_%H%M%S")]; the C library pads every field but the
    year to two digits and prints the year as it is. *)
Definition timestamp (t : datetime) : text :=
  str "_" ++ zfill 2 (decimal (day t)) ++ zfill 2 (decimal (month t)) ++ decimal (year t)
    ++ str "_" ++ zfill 2 (decimal (hour t)) ++ zfill 2 (decimal (minute t))
    ++ zfill 2 (decimal (second t)).

(** ** The file system

    The disk maps a resolved path to what is there.  Resolution is lexical
    ([..] steps to the parent; there are no symbolic links), a file is known
    by its content, a directory by what the process may do with it: add and
    remove entries ([Dir true]), only look entries up ([Dir false]), or only
    list it ([Shut]: no search permission, so that nothing below it can be
    reached). *)

Inductive node :=
| File (content : N)
| Dir (writable : bool)
| Shut.

#[global] Instance node_eq_dec : EqDecision node.
Proof. solve_decision. Defined.

Fixpoint resolve_parts (absolute : bool) (rp : list text) : list text :=
  match rp with
  | [] => []
  | c :: up =>
      let r := resolve_parts absolute up in
      if bool_decide (c = dotdot) then
        match r with
        | [] => if absolute then [] else [dotdot]
        | x :: r' => if bool_decide (x = dotdot) then c :: r else r'
        end
      else c :: r
  end.

Definition resolve (p : Path) : Path :=
  {| root := root p; rparts := resolve_parts (negb (root p =? 0)%N) (rparts p) |}.

Abbreviation fs := (gmap Path node).

Definition shut_at (d : fs) (k : Path) : bool := bool_decide (d !! k = Some Shut).

(** A directory on the way to [k] may not be searched: every system call on
    [k] fails with [EACCES]. *)
Definition barred (d : fs) (k : Path) : bool := existsb (shut_at d) (parents k).

(** [os.stat] *)
Definition os_stat (d : fs) (p : Path) : exn + node :=
  if barred d (resolve p) then inl PermissionError
  else match d !! resolve p with
       | Some n => inr n
       | None => inl FileNotFoundError
       end.

(** What [os.stat] finds, when it succeeds. *)
Definition stat (d : fs) (p : Path) : option node :=
  match os_stat d p with inr n => Some n | inl _ => None end.

Definition is_file_at (d : fs) (p : Path) : bool :=
  match stat d p with Some (File _) => true | _ => false end.

Definition is_dir_at (d : fs) (p : Path) : bool :=
  match stat d p with Some (Dir _) | Some Shut => true | _ => false end.

Definition exists_at (d : fs) (p : Path) : bool :=
  match stat d p with Some _ => true | None => false end.

(** [Path.exists], [Path.is_file] and [Path.is_dir], as [pathlib] has them up
    to Python 3.13: a missing entry is the answer [False], any other error
    of [os.stat] is raised again. *)
Definition probe (q : node -> bool) (d : fs) (p : Path) : exn + bool :=
  match os_stat d p with
  | inr n => inr (q n)
  | inl FileNotFoundError | inl NotADirectoryError => inr false
  | inl e => inl e
  end.

Definition path_exists : fs -> Path -> exn + bool := probe (fun _ => true).

Definition path_is_file : fs -> Path -> exn + bool :=
  probe (fun n => match n with File _ => true | _ => false end).

Definition path_is_dir : fs -> Path -> exn + bool :=
  probe (fun n => match n with File _ => false | _ => true end).

(** [os.mkdir] *)
Definition os_mkdir (d : fs) (p : Path) : exn + fs :=
  if barred d (resolve p) then inl PermissionError
  else match d !! parent (resolve p) with
       | None => inl FileNotFoundError
       | Some (File _) => inl NotADirectoryError
       | Some dir =>
           match d !! resolve p with
           | Some _ => inl FileExistsError
           | None =>
               match dir with
               | Dir true => inr (<[resolve p := Dir true]> d)
               | _ => inl PermissionError
               end
           end
       end.

(** The [except OSError] branch of [Path.mkdir]: the error is swallowed
    when [exist_ok] is set and the path is a directory. *)
Definition mkdir_except (exist_ok : bool) (d : fs) (p : Path) (e : exn) : exn + fs :=
  if exist_ok then
    match path_is_dir d p with
    | inr true => inr d
    | inr false => inl e
    | inl e' => inl e'
    end
  else inl e.

(** [Path.mkdir(parents=False, exist_ok=...)]: of the errors of [os.mkdir],
    a missing parent is raised again, any other one goes to the [except
    OSError] branch. *)
Definition mkdir_here (exist_ok : bool) (d : fs) (p : Path) : exn + fs :=
  match os_mkdir d p with
  | inr d' => inr d'
  | inl FileNotFoundError => inl FileNotFoundError
  | inl e => mkdir_except exist_ok d p e
  end.

(** [Path.mkdir(parents=True, exist_ok=...)]: on a missing parent the parent
    is made first, with its own parents, and the directory after it.  These
    are several system calls: the result is the outcome together with the
    disk they leave, which keeps the directories made before a failure. *)
Fixpoint mkdir_parents (exist_ok : bool) (d : fs) (rt : N) (rp : list text)
    : (exn + unit) * fs :=
  match os_mkdir d (mkPath rt rp) with
  | inr d' => (inr tt, d')
  | inl FileNotFoundError =>
      match rp with
      | [] => (inl FileNotFoundError, d)
      | _ :: up =>
          match mkdir_parents true d rt up with
          | (inl e, d') => (inl e, d')
          | (inr _, d') =>
              match mkdir_here exist_ok d' (mkPath rt rp) with
              | inr d'' => (inr tt, d'')
              | inl e => (inl e, d')
              end
          end
      end
  | inl e =>
      match mkdir_except exist_ok d (mkPath rt rp) e with
      | inr d' => (inr tt, d')
      | inl e' => (inl e', d)
      end
  end.

(** [os.rename] of a regular file: the entry moves to the target and replaces
    a regular file that is there.  The program renames only what [is_file]
    accepted; renaming a directory is outside of this model and is refused. *)
Definition os_rename (d : fs) (src dst : Path) : exn + fs :=
  if barred d (resolve src) || barred d (resolve dst) then inl PermissionError
  else match d !! resolve src with
       | None => inl FileNotFoundError
       | Some (Dir _) | Some Shut => inl PermissionError
       | Some (File c) =>
           match d !! parent (resolve src), d !! parent (resolve dst) with
           | Some (Dir ws), Some (Dir wd) =>
               if bool_decide (resolve src = resolve dst) then inr d
               else if negb (ws && wd) then inl PermissionError
               else match d !! resolve dst with
                    | Some (Dir _) | Some Shut => inl IsADirectoryError
                    | _ => inr (<[resolve dst := File c]> (delete (resolve src) d))
                    end
           | Some (File _), _ | _, Some (File _) => inl NotADirectoryError
           | Some Shut, _ | _, Some Shut => inl PermissionError
           | _, _ => inl FileNotFoundError
           end
       end.

(** [p.iterdir()]: the entries of the directory, in the order the disk lists
    them, as children of [p]. *)
Definition child_of (k : Path) (x : Path * node) : option text :=
  match rparts (fst x) with
  | n :: up => if bool_decide (root (fst x) = root k /\ up = rparts k) then Some n else None
  | [] => None
  end.

Definition listdir (d : fs) (p : Path) : list text := omap (child_of (resolve p)) (map_to_list d).

Definition iterdir (d : fs) (p : Path) : exn + list Path :=
  match os_stat d p with
  | inl e => inl e
  | inr (File _) => inl NotADirectoryError
  | inr _ => inr (map (fun n => mkPath (root p) (n :: rparts p)) (listdir d p))
  end.

(** [[f for f in entries if f.is_file()]]: the first [is_file] that raises
    ends the listing. *)
Fixpoint only_files (d : fs) (entries : list Path) : exn + list Path :=
  match entries with
  | [] => inr []
  | f :: rest =>
      match path_is_file d f with
      | inl e => inl e
      | inr b =>
          match only_files d rest with
          | inl e => inl e
          | inr files => inr (if b then f :: files else files)
          end
      end
  end.

(** ** The program's effects

    A run reads and changes the disk, writes log records and reads the
    clock; an exception ends the computation it is raised in and keeps the
    state reached so far. *)

Inductive event :=
| LogAbort                                       (* error: output inside input *)
| LogSkip (file : text)                          (* warning: no pattern match *)
| LogExists (file renamed : text)                (* info: renamed on collision *)
| LogMoved (file : text) (folder : Path)         (* info: moved *)
| LogFailed (file : text) (folder : Path) (e : exn)  (* error: move failed *)
| LogComplete.                                   (* info: run complete *)

Record world := mkWorld {
  disk : fs;
  log : list event;
  clock : nat -> datetime;
  ticks : nat
}.

Definition M (A : Type) : Type := world -> (exn + A) * world.

Definition ret {A} (a : A) : M A := fun w => (inr a, w).

Definition bind {A B} (c : M A) (k : A -> M B) : M B :=
  fun w => match c w with
           | (inr a, w') => k a w'
           | (inl e, w') => (inl e, w')
           end.

Definition raise {A} (e : exn) : M A := fun w => (inl e, w).

Definition try_except {A} (c : M A) (handler : exn -> M A) : M A :=
  fun w => match c w with
           | (inr a, w') => (inr a, w')
           | (inl e, w') => handler e w'
           end.

Declare Scope prog_scope.
Delimit Scope prog_scope with prog.
Notation "x <- c ;; k" := (bind c (fun x => k))
  (at level 100, c at next level, right associativity) : prog_scope.
Notation "c ;; k" := (bind c (fun _ => k))
  (at level 100, right associativity) : prog_scope.
Local Open Scope prog_scope.

Definition emit (e : event) : M unit :=
  fun w => (inr tt, mkWorld (disk w) (log w ++ [e]) (clock w) (ticks w)).

(** [datetime.now()] *)
Definition now : M datetime :=
  fun w => (inr (clock w (ticks w)), mkWorld (disk w) (log w) (clock w) (S (ticks w))).

(** A system call that only looks at the disk. *)
Definition call {A} (f : fs -> exn + A) : M A := fun w => (f (disk w), w).

(** A system call: the disk changes when it succeeds only. *)
Definition syscall (f : fs -> exn + fs) : M unit :=
  fun w => match f (disk w) with
           | inr d => (inr tt, mkWorld d (log w) (clock w) (ticks w))
           | inl e => (inl e, w)
           end.

(** Several system calls in a row: the disk is what they leave, also when
    one of them fails. *)
Definition syscalls (f : fs -> (exn + unit) * fs) : M unit :=
  fun w => (fst (f (disk w)), mkWorld (snd (f (disk w))) (log w) (clock w) (ticks w)).

Definition lift {A} (x : exn + A) : M A :=
  fun w => (x, w).

Fixpoint for_each {A} (l : list A) (body : A -> M unit) : M unit :=
  match l with
  | [] => ret tt
  | x :: l' => body x ;; for_each l' body
  end.

(** ** FilePlacer *)

Definition create_folder (artist_name : text) (output_dir : Path) : M Path :=
  let artist_dir := joinpath output_dir artist_name in
  syscalls (fun d => mkdir_parents true d (root artist_dir) (rparts artist_dir)) ;;
  ret artist_dir.

Definition move_file (filepath : Path) (output_dir : Path) : M unit :=
  let target_path := joinpath output_dir (name filepath) in
  taken <- call (fun d => path_exists d target_path) ;;
  target_path <-
    (if taken : bool then
       t <- now ;;
       let target_path := joinpath output_dir (stem filepath ++ timestamp t ++ suffix filepath) in
       emit (LogExists (name filepath) (name target_path)) ;;
       ret target_path
     else ret target_path) ;;
  try_except
    (syscall (fun d => os_rename d filepath target_path) ;;
     emit (LogMoved (name filepath) (parent target_path)))
    (fun e => emit (LogFailed (name filepath) (parent target_path) e)).

(** ** Orchestrator *)

Definition store_file (U : ucd) (filepath input_dir output_dir : Path) : M unit :=
  match re_fullmatch (tablature_regex U) (name filepath) with
  | None => emit (LogSkip (name filepath))
  | Some _ =>
      artist <- lift (get_artist U (name filepath)) ;;
      output_dir <- create_folder artist output_dir ;;
      move_file filepath output_dir
  end.

(** The body of [organize_tabs] after its check: the regular files of the
    input directory are listed once and stored one after the other. *)
Definition store_all (U : ucd) (input_dir output_dir : Path) : M unit :=
  entries <- call (fun d => iterdir d input_dir) ;;
  files <- call (fun d => only_files d entries) ;;
  for_each files (fun file => store_file U file input_dir output_dir) ;;
  emit LogComplete.

Definition organize_tabs (U : ucd) (input output : text) : M unit :=
  let input_dir := parse input in
  let output_dir := parse output in
  if bool_decide (output_dir ∈ parents input_dir) then
    emit LogAbort ;; raise (SystemExit 1)
  else store_all U input_dir output_dir.

(** The exit status of the process: 0 when the command returns, the code of
    [sys.exit], and 1 for an exception nothing caught. *)
Definition exit_status (r : exn + unit) : N :=
  match r with
  | inr _ => 0
  | inl (SystemExit code) => code
  | inl _ => 1
  end.

(** ** Vocabulary of the statements *)

Definition all (q : char -> bool) (s : text) : Prop := Forall (fun c => q c = true) s.

(** The file name passes the structural check of [store_file]. *)
Definition matches (U : ucd) (nm : text) : Prop :=
  is_Some (re_fullmatch (tablature_regex U) nm).

(** The shape the structural pattern accepts: a run without line feed, a
    white-space character, a hyphen, a white-space character, a run without
    line feed, a dot, word characters. *)
Definition shape (U : ucd) (nm : text) : Prop :=
  exists a w1 w2 b ext,
    nm = a ++ [w1; 45%N; w2] ++ b ++ [46%N] ++ ext
    /\ a <> [] /\ all is_dot a /\ is_space w1 = true /\ is_space w2 = true
    /\ b <> [] /\ all is_dot b /\ ext <> [] /\ all (is_word U) ext.

(** The shape with the separator read as the three characters space, hyphen,
    space and the segments as any non-empty text. *)
Definition literal_shape (U : ucd) (nm : text) : Prop :=
  exists a b ext,
    nm = a ++ str " - " ++ b ++ str "." ++ ext
    /\ a <> [] /\ b <> [] /\ ext <> [] /\ all (is_word U) ext.

(** [s] starts with a separator [\s-\s]. *)
Definition at_separator (s : text) : bool :=
  match s with
  | w1 :: h :: w2 :: _ => is_space w1 && lit 45%N h && is_space w2
  | _ => false
  end.

Fixpoint starts_with (pat s : text) : bool :=
  match pat, s with
  | [], _ => true
  | x :: pat', c :: s' => (x =? c)%N && starts_with pat' s'
  | _ :: _, [] => false
  end.

(** The text before the first occurrence of [pat] in [s]. *)
Fixpoint before_first (pat s : text) : option text :=
  if starts_with pat s then Some []
  else match s with
       | [] => None
       | c :: s' => option_map (cons c) (before_first pat s')
       end.

(** The segment [get_artist] hands to [reformat_artist]. *)
Definition artist_segment (filename : text) : option text :=
  option_map group1 (re_match artist_regex filename).

(** A table that knows no cased or alphanumeric character outside ASCII; the
    program's answers on ASCII text do not depend on the table. *)
Definition ascii_only : ucd :=
  {| u_alnum := fun _ => false; u_cased := fun _ => false;
     u_lower := fun _ c _ => [c]; u_title := fun c => [c] |}.

(** The entries of the Unicode database for U+01F0, LATIN SMALL LETTER J WITH
    CARON (alphabetic, cased, no single title-case letter: its title case is
    U+004A U+030C), and for the other code points the examples use (U+030C,
    COMBINING CARON: neither alphanumeric nor cased, mapped to itself). *)
Definition caron_table : ucd :=
  {| u_alnum := fun c => (c =? 496)%N;
     u_cased := fun c => (c =? 496)%N;
     u_lower := fun _ c _ => [c];
     u_title := fun c => if (c =? 496)%N then [74; 780]%N else [c] |}.

(** [s] without its leading white space, but never without its last
    character. *)
Fixpoint lstrip_keep_last (s : text) : text :=
  match s with
  | [] => []
  | x :: rest =>
      match rest with
      | [] => s
      | _ :: _ => if is_space x then lstrip_keep_last rest else s
      end
  end.

(** The remainder of an artist segment that is "the" in any case, white
    space and at least one more character: what follows the white space, or
    the last character when only white space follows. *)
Definition the_remainder (seg : text) : option text :=
  match seg with
  | t :: h :: e :: w :: x :: rest =>
      if lit_i 116%N t && lit_i 104%N h && lit_i 101%N e && is_space w
      then Some (lstrip_keep_last (x :: rest))
      else None
  | _ => None
  end.

(** The segment starts with "the" in any case and a white-space character. *)
Definition starts_with_the (seg : text) : bool :=
  match seg with
  | t :: h :: e :: w :: _ => lit_i 116%N t && lit_i 104%N h && lit_i 101%N e && is_space w
  | _ => false
  end.

(** The output path is the input path or a descendant of it. *)
Definition nested (input_dir output_dir : Path) : Prop :=
  output_dir = input_dir \/ input_dir ∈ parents output_dir.

(** A file name as a directory lists it: not empty, without slash, neither
    [.] nor [..]. *)
Definition plain (n : text) : Prop :=
  n <> [] /\ ~ In slash n /\ n <> dot /\ n <> dotdot.

Definition two_digits (n : N) : text := [48 + n / 10; 48 + n mod 10]%N.

Definition four_digits (n : N) : text :=
  [48 + n / 1000; 48 + (n / 100) mod 10; 48 + (n / 10) mod 10; 48 + n mod 10]%N.

(** A reading of the wall clock: a calendar date with a four-digit year. *)
Definition wall_clock (t : datetime) : Prop :=
  (1000 <= year t <= 9999 /\ 1 <= month t <= 12 /\ 1 <= day t <= 31
   /\ hour t <= 23 /\ minute t <= 59 /\ second t <= 59)%N.

(** The last log record reports a move. *)
Definition moved (w : world) : Prop :=
  exists file folder, last (log w) = Some (LogMoved file folder).



Definition sample_time : datetime :=
  {| year := 2024; month := 3; day := 7; hour := 9; minute := 5; second := 0 |}.

(** An input directory with one tablature. *)
Definition sample_disk : fs :=
  list_to_map
    [(parse (str "/"), Dir true); (parse (str "/in"), Dir true);
     (parse (str "/in/Metallica - One.gp5"), File 1)].

(** An output tree in which the tablature of [sample_disk] is already
    placed. *)
Definition collision_disk : fs :=
  list_to_map
    [(parse (str "/"), Dir true); (parse (str "/in"), Dir true);
     (parse (str "/in/Metallica - One.gp5"), File 1);
     (parse (str "/out"), Dir true); (parse (str "/out/Metallica"), Dir true);
     (parse (str "/out/Metallica/Metallica - One.gp5"), File 7)].

(** Two input directories with a file of the same name each, and an artist
    folder that already holds a file under the name the clock gives. *)
Definition crowded_disk : fs :=
  list_to_map
    [(parse (str "/"), Dir true); (parse (str "/a"), Dir true); (parse (str "/b"), Dir true);
     (parse (str "/a/X - y.txt"), File 1); (parse (str "/b/X - y.txt"), File 2);
     (parse (str "/out"), Dir true); (parse (str "/out/X"), Dir true);
     (parse (str "/out/X/X - y_07032024_090500.txt"), File 9)].

(** The characters of a timestamp are digits and underscores. *)
Definition stamp_char (c : char) : bool := in_range 48 57 c || (c =? 95)%N.

(** The case mappings of [c] are single characters that the same mappings
    leave alone and that are cased when [c] is. *)
Definition stable (U : ucd) (c : char) : Prop :=
  exists t l,
    to_title U c = [t] /\ (forall before after, to_lower U before c after = [l])
    /\ to_title U t = [t] /\ (forall before after, to_lower U before l after = [l])
    /\ cased U t = cased U c /\ cased U l = cased U c.

Definition ascii_title_of (c : char) : char := if ascii_lower c then (c - 32)%N else c.
Definition ascii_lower_of (c : char) : char := if ascii_upper c then (c + 32)%N else c.

(** Two input directories with a file of the same name each and an empty
    artist folder. *)
Definition two_inputs_disk : fs :=
  list_to_map
    [(parse (str "/"), Dir true); (parse (str "/a"), Dir true); (parse (str "/b"), Dir true);
     (parse (str "/a/X - y.txt"), File 1); (parse (str "/b/X - y.txt"), File 2);
     (parse (str "/out"), Dir true); (parse (str "/out/X"), Dir true)].

(** An output directory in which a regular file has the name of an artist. *)
Definition blocked_disk : fs :=
  list_to_map
    [(parse (str "/"), Dir true); (parse (str "/in"), Dir true);
     (parse (str "/in/Metallica - One.gp5"), File 1);
     (parse (str "/out"), Dir true); (parse (str "/out/Metallica"), File 5)].

(** An input directory with a text file and a tablature; the artist folder
    holds a file of the tablature's name and a directory that has the name
    the clock gives. *)
Definition stuck_disk : fs :=
  list_to_map
    [(parse (str "/"), Dir true); (parse (str "/in"), Dir true);
     (parse (str "/in/readme.txt"), File 3); (parse (str "/in/X - y.txt"), File 1);
     (parse (str "/out"), Dir true); (parse (str "/out/X"), Dir true);
     (parse (str "/out/X/X - y.txt"), File 7);
     (parse (str "/out/X/X - y_07032024_090500.txt"), Dir true)].

(** An artist folder that may not be searched. *)
Definition shut_disk : fs :=
  list_to_map
    [(parse (str "/"), Dir true); (parse (str "/in"), Dir true);
     (parse (str "/in/Metallica - One.gp5"), File 1);
     (parse (str "/out"), Dir true); (parse (str "/out/Metallica"), Shut)].

Definition sample_world (d : fs) : world := mkWorld d [] (fun _ => sample_time) 0.

(** ** Vocabulary of the further properties *)

Definition ascii_letter (c : char) : bool := ascii_upper c || ascii_lower c.

(** The character before position [i] of [s] is an ASCII letter. *)
Definition after_letter (s : text) (i : nat) : bool :=
  match i with
  | O => false
  | S j => match s !! j with Some p => ascii_letter p | None => false end
  end.

(** An input directory that holds no tablature: a text file and a
    directory. *)
Definition notes_disk : fs :=
  list_to_map
    [(parse (str "/"), Dir true); (parse (str "/in"), Dir true);
     (parse (str "/in/readme.txt"), File 3); (parse (str "/in/A - B.txt"), Dir true)].

(** A tablature whose artist segment is [..]. *)
Definition dots_disk : fs :=
  list_to_map
    [(parse (str "/"), Dir true); (parse (str "/music"), Dir true);
     (parse (str "/music/in"), Dir true); (parse (str "/music/out"), Dir true);
     (parse (str "/music/in/.. - x.txt"), File 1)].

(** The record of how the move of the file [nm] ended. *)
Definition outcome (nm : text) (e : event) : Prop :=
  (exists folder, e = LogMoved nm folder) \/ (exists folder x, e = LogFailed nm folder x).

(** The records one file can leave in the log. *)
Definition file_records (nm : text) (evs : list event) : Prop :=
  evs = [LogSkip nm]
  \/ (exists o, evs = [o] /\ outcome nm o)
  \/ (exists renamed o, evs = [LogExists nm renamed; o] /\ outcome nm o).

(** * Properties *)

(** ** The matcher *)

Section Matcher.

Variable p : char -> bool.
Variable k : text -> text -> list result.

(** The ways to match [p+] (greedy or not) followed by [k] are the ways to
    split off a non-empty run of [p] and to go on with [k]. *)
Lemma many1_In (g : bool) (taken s : text) (x : result) :
  In x (many1 p g k taken s) <->
  exists pre rest, s = pre ++ rest /\ pre <> [] /\ all p pre /\ In x (k (taken ++ pre) rest).
Proof.
  revert taken. induction s as [|c s IH]; intros taken; simpl.
  - split; [tauto|]. intros (pre & rest & E & Hne & _). destruct pre; [congruence|discriminate].
  - destruct (p c) eqn:Hc.
    + assert (In x (k (taken ++ [c]) s) \/ In x (many1 p g k (taken ++ [c]) s) <->
              exists pre rest, c :: s = pre ++ rest /\ pre <> [] /\ all p pre
                               /\ In x (k (taken ++ pre) rest)) as Hiff.
      { rewrite IH. split.
        - intros [H|(pre & rest & -> & Hne & Hall & H)].
          + exists [c], s. repeat split; [congruence|by repeat constructor|exact H].
          + exists (c :: pre), rest. rewrite <- app_assoc in H.
            repeat split; [congruence|by constructor|exact H].
        - intros (pre & rest & E & Hne & Hall & H).
          destruct pre as [|c' pre]; [congruence|]. simplify_eq/=.
          destruct pre as [|c'' pre].
          + left. exact H.
          + right. exists (c'' :: pre), rest. rewrite <- app_assoc.
            repeat split; [congruence|by inversion Hall|exact H]. }
      destruct g; rewrite in_app_iff; rewrite <- Hiff; tauto.
    + split; [simpl; tauto|]. intros (pre & rest & E & Hne & Hall & _).
      destruct pre as [|c' pre]; [congruence|]. simplify_eq/=.
      inversion Hall; congruence.
Qed.

(** The first way to match [p+?]: the shortest run after which [k] matches. *)
Lemma many1_lazy_head (taken s : text) (x : result) :
  head (many1 p false k taken s) = Some x ->
  exists pre rest, s = pre ++ rest /\ pre <> [] /\ all p pre
    /\ head (k (taken ++ pre) rest) = Some x
    /\ forall pre' rest', s = pre' ++ rest' -> pre' <> [] ->
         length pre' < length pre -> k (taken ++ pre') rest' = [].
Proof.
  revert taken. induction s as [|c s IH]; intros taken; simpl; [discriminate|].
  destruct (p c) eqn:Hc; [|discriminate].
  destruct (k (taken ++ [c]) s) as [|y ys] eqn:Hk; simpl.
  - intros H. destruct (IH _ H) as (pre & rest & E & Hne & Hall & Hx & Hmin).
    exists (c :: pre), rest. rewrite <- app_assoc in Hx.
    repeat split; [by rewrite E|congruence|by constructor|exact Hx|].
    intros pre' rest' E' Hne' Hlt.
    destruct pre' as [|c' pre']; [congruence|]. injection E' as <- E'.
    destruct pre' as [|c'' pre'].
    + simpl in E'. subst rest'. exact Hk.
    + specialize (Hmin (c'' :: pre') rest' E'). rewrite <- app_assoc in Hmin.
      apply Hmin; [congruence|simpl in *; lia].
  - intros [= <-]. exists [c], s. rewrite Hk.
    repeat split; [congruence|by repeat constructor|].
    intros pre' rest' _ Hne' Hlt. destruct pre'; [congruence|simpl in Hlt; lia].
Qed.

(** The first way to match [p+]: the longest run after which [k] matches. *)
Lemma many1_greedy_head (taken s : text) (x : result) :
  head (many1 p true k taken s) = Some x ->
  exists pre rest, s = pre ++ rest /\ pre <> [] /\ all p pre
    /\ head (k (taken ++ pre) rest) = Some x
    /\ forall pre' rest', s = pre' ++ rest' -> all p pre' ->
         length pre < length pre' -> k (taken ++ pre') rest' = [].
Proof.
  revert taken. induction s as [|c s IH]; intros taken; simpl; [discriminate|].
  destruct (p c) eqn:Hc; [|discriminate].
  destruct (many1 p true k (taken ++ [c]) s) as [|y ys] eqn:Hm; simpl.
  - intros Hx. exists [c], s.
    repeat split; [congruence|by repeat constructor|exact Hx|].
    intros pre' rest' E' Hall Hlt.
    destruct pre' as [|c' pre']; [simpl in Hlt; lia|]. injection E' as <- E'.
    destruct pre' as [|c'' pre']; [simpl in Hlt; lia|].
    destruct (k (taken ++ c :: c'' :: pre') rest') as [|z zs] eqn:Hk; [done|].
    exfalso. assert (In z (many1 p true k (taken ++ [c]) s)) as Hin.
    { apply many1_In. exists (c'' :: pre'), rest'. rewrite <- app_assoc. simpl. rewrite Hk.
      repeat split; [exact E'|congruence|by inversion Hall|by left]. }
    rewrite Hm in Hin. destruct Hin.
  - intros [= <-]. assert (head (many1 p true k (taken ++ [c]) s) = Some y) as H by by rewrite Hm.
    destruct (IH _ H) as (pre & rest & E & Hne & Hall & Hx & Hmax).
    exists (c :: pre), rest. rewrite <- app_assoc in Hx.
    repeat split; [by rewrite E|congruence|by constructor|exact Hx|].
    intros pre' rest' E' Hall' Hlt.
    destruct pre' as [|c' pre']; [simpl in Hlt; lia|]. injection E' as <- E'.
    destruct pre' as [|c'' pre']; [simpl in Hlt; lia|].
    specialize (Hmax (c'' :: pre') rest' E'). rewrite <- app_assoc in Hmax.
    apply Hmax; [by inversion Hall'|simpl in *; lia].
Qed.

End Matcher.

(** ** The classifier *)

Lemma find_is_Some {A} (f : A -> bool) (l : list A) :
  is_Some (List.find f l) <-> exists x, In x l /\ f x = true.
Proof.
  split.
  - intros [x Hx]. exists x. by apply find_some in Hx.
  - intros (x & Hin & Hf). destruct (List.find f l) eqn:E; [by eexists|].
    rewrite (find_none _ _ E _ Hin) in Hf. discriminate.
Qed.

Lemma lit_true (x c : char) : lit x c = true <-> c = x.
Proof. unfold lit. rewrite N.eqb_eq. split; congruence. Qed.

Lemma exec_capture (p : char -> bool) (g : bool) (r : list item) (st : bool)
    (gs : list text) (s : text) :
  exec (Capture p g :: r) st gs s
  = many1 p g (fun t s' => exec r false (gs ++ [t]) s') [] s.
Proof. reflexivity. Qed.

Lemma exec_many1 (p : char -> bool) (g : bool) (r : list item) (st : bool)
    (gs : list text) (s : text) :
  exec (Many1 p g :: r) st gs s = many1 p g (fun _ s' => exec r false gs s') [] s.
Proof. reflexivity. Qed.

Lemma exec_one (p : char -> bool) (r : list item) (st : bool) (gs : list text) (s : text) :
  exec (One p :: r) st gs s
  = match s with
    | c :: s' => if p c then exec r false gs s' else []
    | [] => []
    end.
Proof. reflexivity. Qed.

Lemma exec_eol (st : bool) (gs : list text) (s : text) (x : result) :
  In x (exec [Eol] st gs s) -> at_end x = true -> s = [] /\ x = (gs, []).
Proof.
  destruct s as [|c [|c' s]]; simpl.
  - intros [<-|[]] _. done.
  - destruct (c =? 10)%N; [|intros []]. intros [<-|[]]. discriminate.
  - intros [].
Qed.

(** The ways to match the separator [\s-\s] and to go on. *)
Lemma exec_separator (r : list item) (st : bool) (g : list text) (s : text) (x : result) :
  In x (exec (One is_space :: One (lit 45%N) :: One is_space :: r) st g s) <->
  exists w1 w2 s', s = w1 :: 45%N :: w2 :: s' /\ is_space w1 = true /\ is_space w2 = true
                   /\ In x (exec r false g s').
Proof.
  cbn [exec]. split.
  - destruct s as [|w1 s]; [intros []|].
    destruct (is_space w1) eqn:E1; [|intros []].
    destruct s as [|h s]; [intros []|].
    destruct (lit 45%N h) eqn:E2; [|intros []].
    destruct s as [|w2 s]; [intros []|].
    destruct (is_space w2) eqn:E3; [|intros []].
    apply lit_true in E2 as ->. intros H. by exists w1, w2, s.
  - intros (w1 & w2 & s' & -> & E1 & E2 & H). by rewrite E1, E2.
Qed.

Lemma fullmatch_shape (U : ucd) (nm : text) : matches U nm <-> shape U nm.
Proof.
  unfold matches, re_fullmatch, shape. rewrite find_is_Some. split.
  - intros (x & Hin & Hend). unfold tablature_regex in Hin. rewrite exec_capture in Hin.
    apply many1_In in Hin as (a & s1 & -> & Ha & Halla & Hin).
    apply exec_separator in Hin as (w1 & w2 & s2 & -> & Hw1 & Hw2 & Hin).
    rewrite exec_many1 in Hin.
    apply many1_In in Hin as (b & s3 & -> & Hb & Hallb & Hin).
    rewrite exec_one in Hin.
    destruct s3 as [|d s3]; [destruct Hin|].
    destruct (lit 46%N d) eqn:Hd; [|destruct Hin]. apply lit_true in Hd as ->.
    rewrite exec_many1 in Hin.
    apply many1_In in Hin as (ext & s4 & -> & Hext & Hallext & Hin).
    apply exec_eol in Hin as [-> _]; [|done].
    exists a, w1, w2, b, ext. rewrite app_nil_r. by repeat split.
  - intros (a & w1 & w2 & b & ext & -> & Ha & Halla & Hw1 & Hw2 & Hb & Hallb & Hext & Hallext).
    exists ([a], []). split; [|done].
    unfold tablature_regex. rewrite exec_capture. apply many1_In.
    exists a, ([w1; 45%N; w2] ++ b ++ [46%N] ++ ext). repeat split; [done..|].
    apply exec_separator. exists w1, w2, (b ++ [46%N] ++ ext). repeat split; [done..|].
    rewrite exec_many1. apply many1_In. exists b, ([46%N] ++ ext). repeat split; [done..|].
    simpl. apply many1_In. exists ext, []. rewrite app_nil_r. repeat split; [done..|].
    by left.
Qed.

Lemma exec_separator_only (st : bool) (g : list text) (s : text) :
  exec [One is_space; One (lit 45%N); One is_space] st g s
  = if at_separator s then [(g, drop 3 s)] else [].
Proof.
  cbn [exec]. unfold at_separator.
  destruct s as [|w1 [|h [|w2 s]]]; cbn [drop]; repeat case_match; done.
Qed.

Lemma at_separator_inv (s : text) :
  at_separator s = true ->
  exists w1 w2 rest, s = w1 :: 45%N :: w2 :: rest /\ is_space w1 = true /\ is_space w2 = true.
Proof.
  destruct s as [|w1 [|h [|w2 s]]]; cbn [at_separator]; try discriminate.
  intros H. apply andb_prop in H as [H H2]. apply andb_prop in H as [H1 Hh].
  apply lit_true in Hh as ->. by exists w1, w2, s.
Qed.

(** What [re.match] reports for the artist pattern: the shortest non-empty
    run without line feed that a separator follows. *)
Lemma artist_match (nm : text) (m : result) :
  re_match artist_regex nm = Some m ->
  exists seg w1 w2 rest,
    m = ([seg], rest) /\ nm = seg ++ w1 :: 45%N :: w2 :: rest
    /\ seg <> [] /\ all is_dot seg /\ is_space w1 = true /\ is_space w2 = true
    /\ forall seg' rest', nm = seg' ++ rest' -> seg' <> [] ->
         length seg' < length seg -> at_separator rest' = false.
Proof.
  unfold re_match, artist_regex. rewrite exec_capture. intros H.
  apply many1_lazy_head in H as (seg & s1 & -> & Hne & Hall & Hx & Hmin).
  rewrite exec_separator_only in Hx.
  destruct (at_separator s1) eqn:Hs; [|discriminate].
  apply at_separator_inv in Hs as (w1 & w2 & rest & -> & Hw1 & Hw2).
  injection Hx as <-. exists seg, w1, w2, rest. repeat split; [done..|].
  intros seg' rest' E Hne' Hlt. specialize (Hmin seg' rest' E Hne' Hlt).
  rewrite exec_separator_only in Hmin. by destruct (at_separator rest').
Qed.

Lemma artist_match_exists (a rest : text) :
  a <> [] -> all is_dot a -> at_separator rest = true ->
  is_Some (re_match artist_regex (a ++ rest)).
Proof.
  intros Ha Hall Hsep. unfold re_match, artist_regex. rewrite exec_capture.
  set (l := many1 _ _ _ _ _). assert (In ([a], drop 3 rest) l) as Hin.
  { subst l. apply many1_In. exists a, rest. repeat split; [done..|].
    rewrite exec_separator_only, Hsep. by left. }
  destruct l; [destruct Hin|by eexists].
Qed.

Lemma matches_artist_match (U : ucd) (nm : text) :
  matches U nm -> is_Some (re_match artist_regex nm).
Proof.
  intros H. apply fullmatch_shape in H
    as (a & w1 & w2 & b & ext & -> & Ha & Halla & Hw1 & Hw2 & _).
  apply artist_match_exists; [done..|]. cbn [app at_separator].
  rewrite Hw1, Hw2. reflexivity.
Qed.

(** C5. Every file name that passes the structural check also matches the
    artist pattern: [get_artist] returns an artist and its [ValueError] is
    not raised. *)
Theorem get_artist_total_on_matches (U : ucd) (filename : text) :
  matches U filename ->
  exists artist, get_artist U filename = inr artist
                 /\ get_artist U filename <> inl ValueError.
Proof.
  intros H. apply matches_artist_match in H as [m Hm].
  unfold get_artist. rewrite Hm. eexists. split; [reflexivity|discriminate].
Qed.

Lemma get_artist_total_witness :
  exists artist,
    get_artist ascii_only (str "Metallica - Enter Sandman.gp5") = inr artist
    /\ get_artist ascii_only (str "Metallica - Enter Sandman.gp5") <> inl ValueError.
Proof.
  apply (get_artist_total_on_matches ascii_only (str "Metallica - Enter Sandman.gp5")).
  vm_compute. eexists. reflexivity.
Defined.

Lemma starts_with_app (pat s : text) :
  starts_with pat s = true -> exists rest, s = pat ++ rest.
Proof.
  revert s. induction pat as [|x pat IH]; intros s H; [by exists s|].
  destruct s as [|c s]; [done|]. cbn [starts_with] in H.
  apply andb_prop in H as [->%N.eqb_eq H]. destruct (IH _ H) as [rest ->]. by exists rest.
Qed.

Lemma before_first_Some (pat s pre : text) :
  before_first pat s = Some pre -> exists rest, s = pre ++ pat ++ rest.
Proof.
  revert pre. induction s as [|c s IH]; intros pre; cbn [before_first].
  - destruct (starts_with pat []) eqn:E; [|done]. intros [= <-]. by apply starts_with_app.
  - destruct (starts_with pat (c :: s)) eqn:E.
    + intros [= <-]. by apply starts_with_app.
    + destruct (before_first pat s) as [pre'|]; [|done]. intros [= <-].
      destruct (IH pre' eq_refl) as [rest ->]. by exists rest.
Qed.

(** C6, as the code has it.  For every structurally matching file name the
    artist segment is the shortest non-empty leading run that is followed by
    a separator (white space, hyphen, white space): no separator starts at an
    earlier position other than the very first, the artist is computed from
    that segment alone and what follows it is not used.  It is the text
    before the first space, hyphen, space exactly when that text is not
    empty and no separator follows a shorter non-empty leading run. *)
Theorem artist_segment_shortest (U : ucd) (filename : text) :
  matches U filename ->
  exists seg w1 w2 rest,
    artist_segment filename = Some seg
    /\ filename = seg ++ w1 :: 45%N :: w2 :: rest
    /\ seg <> [] /\ is_space w1 = true /\ is_space w2 = true
    /\ (forall seg' rest', filename = seg' ++ rest' -> seg' <> [] ->
          length seg' < length seg -> at_separator rest' = false)
    /\ get_artist U filename = inr (reformat_artist U seg)
    /\ (forall pre, before_first (str " - ") filename = Some pre ->
          (seg = pre
           <-> pre <> []
               /\ forall seg' rest', filename = seg' ++ rest' -> seg' <> [] ->
                    length seg' < length pre -> at_separator rest' = false)).
Proof.
  intros H. destruct (matches_artist_match _ _ H) as [m Hm].
  destruct (artist_match _ _ Hm) as (seg & w1 & w2 & rest & -> & E & Hne & _ & Hw1 & Hw2 & Hmin).
  exists seg, w1, w2, rest. unfold artist_segment, get_artist. rewrite Hm.
  do 7 (split; [done|]).
  intros pre [rest0 E0]%before_first_Some. split.
  - intros <-. by split.
  - intros [Hpre Hbefore].
    destruct (Nat.lt_trichotomy (length seg) (length pre)) as [Hlt|[Heq|Hgt]].
    + specialize (Hbefore seg _ E Hne Hlt). cbn [at_separator] in Hbefore.
      rewrite Hw1, Hw2 in Hbefore. discriminate.
    + rewrite E in E0. by apply app_inj_1 in E0 as [-> _].
    + specialize (Hmin pre _ E0 Hpre Hgt). discriminate.
Qed.

Lemma artist_segment_shortest_witness :
  exists seg w1 w2 rest,
    artist_segment (str "AC - DC - Thunder.gp5") = Some seg
    /\ str "AC - DC - Thunder.gp5" = seg ++ w1 :: 45%N :: w2 :: rest
    /\ seg <> [] /\ is_space w1 = true /\ is_space w2 = true
    /\ (forall seg' rest', str "AC - DC - Thunder.gp5" = seg' ++ rest' -> seg' <> [] ->
          length seg' < length seg -> at_separator rest' = false)
    /\ get_artist ascii_only (str "AC - DC - Thunder.gp5") = inr (reformat_artist ascii_only seg)
    /\ (forall pre, before_first (str " - ") (str "AC - DC - Thunder.gp5") = Some pre ->
          (seg = pre
           <-> pre <> []
               /\ forall seg' rest', str "AC - DC - Thunder.gp5" = seg' ++ rest' -> seg' <> [] ->
                    length seg' < length pre -> at_separator rest' = false)).
Proof.
  apply (artist_segment_shortest ascii_only (str "AC - DC - Thunder.gp5")).
  vm_compute. eexists. reflexivity.
Defined.

(** C6, as stated, fails: the segment is not always the text before the
    first occurrence of the three characters space, hyphen, space.  In
    [" - B - C.txt"] that occurrence is at the start and the segment is
    [" - B"]; in ["A<TAB>-<TAB>B - C.txt"] the segment ends at the tabs. *)
Lemma artist_segment_not_before_first_literal :
  ~ (forall U filename, matches U filename ->
       artist_segment filename = before_first (str " - ") filename).
Proof.
  intros H. specialize (H ascii_only (str " - B - C.txt")).
  assert (matches ascii_only (str " - B - C.txt")) as Hm by (vm_compute; by eexists).
  specialize (H Hm). vm_compute in H. discriminate.
Qed.

Example artist_segment_tabs :
  matches ascii_only (str "A" ++ [9; 45; 9]%N ++ str "B - C.txt")
  /\ artist_segment (str "A" ++ [9; 45; 9]%N ++ str "B - C.txt") = Some (str "A")
  /\ before_first (str " - ") (str "A" ++ [9; 45; 9]%N ++ str "B - C.txt")
     = Some (str "A" ++ [9; 45; 9]%N ++ str "B").
Proof. split; [vm_compute; by eexists|]. split; reflexivity. Qed.

(** C2, as the code has it.  A file name passes the structural check exactly
    when it is a non-empty run without line feed, a white-space character, a
    hyphen, a white-space character, a non-empty run without line feed, a
    dot and one or more word characters up to its end; for any other name
    [store_file] only logs the skip warning: the disk is unchanged, no artist
    is computed and no exception is raised. *)
Theorem classify_structural_match (U : ucd) (nm : text) :
  (matches U nm <-> shape U nm)
  /\ (~ shape U nm ->
      forall filepath input_dir output_dir w,
        name filepath = nm ->
        store_file U filepath input_dir output_dir w
        = (inr tt, mkWorld (disk w) (log w ++ [LogSkip nm]) (clock w) (ticks w))).
Proof.
  split; [apply fullmatch_shape|].
  intros Hn filepath input_dir output_dir w <-. unfold store_file.
  destruct (re_fullmatch _ _) eqn:E; [|reflexivity].
  exfalso. apply Hn, fullmatch_shape. unfold matches. rewrite E. by eexists.
Qed.

Lemma classify_structural_match_witness :
  store_file ascii_only (parse (str "/in/readme.txt")) (parse (str "/in")) (parse (str "/out"))
    (mkWorld ∅ [] (fun _ => sample_time) 0)
  = (inr tt, mkWorld ∅ [LogSkip (str "readme.txt")] (fun _ => sample_time) 0).
Proof.
  apply (proj2 (classify_structural_match ascii_only (str "readme.txt"))).
  - intros H. apply fullmatch_shape in H. destruct H as [m Hm]. vm_compute in Hm. discriminate.
  - reflexivity.
Defined.

(** C2, as stated, fails: the separator need not be the three characters
    space, hyphen, space.  ["A<TAB>-<TAB>B.txt"] passes the check. *)
Lemma classify_not_literal_separator :
  ~ (forall U nm, matches U nm <-> literal_shape U nm).
Proof.
  intros H. destruct (H ascii_only (str "A" ++ [9; 45; 9]%N ++ str "B.txt")) as [H1 _].
  destruct H1 as (a & b & ext & E & _); [vm_compute; by eexists|].
  assert (In 32%N (str "A" ++ [9; 45; 9]%N ++ str "B.txt")) as Hin.
  { rewrite E. apply in_or_app. right. by left. }
  vm_compute in Hin. intuition discriminate.
Qed.

(** ** Title case *)

(** A property of the ASCII characters holds when it holds of each of the
    128 of them. *)
Lemma ascii_forall (P : char -> bool) :
  forallb P (map N.of_nat (seq 0 128)) = true ->
  forall c, is_ascii c = true -> P c = true.
Proof.
  intros H c Hc. rewrite forallb_forall in H. apply H.
  apply N.ltb_lt in Hc. rewrite <- (N2Nat.id c). apply in_map, in_seq. lia.
Qed.

Lemma to_title_ascii (U : ucd) (c : char) :
  is_ascii c = true -> to_title U c = [ascii_title_of c].
Proof. intros H. unfold to_title. by rewrite H. Qed.

Lemma to_lower_ascii (U : ucd) (b : text) (c : char) (a : text) :
  is_ascii c = true -> to_lower U b c a = [ascii_lower_of c].
Proof. intros H. unfold to_lower. by rewrite H. Qed.

Lemma cased_ascii (U : ucd) (c : char) :
  is_ascii c = true -> cased U c = ascii_upper c || ascii_lower c.
Proof. intros H. unfold cased. by rewrite H. Qed.

Lemma ascii_case_facts (c : char) :
  is_ascii c = true ->
  is_ascii (ascii_title_of c) = true /\ is_ascii (ascii_lower_of c) = true
  /\ ascii_title_of (ascii_title_of c) = ascii_title_of c
  /\ ascii_lower_of (ascii_lower_of c) = ascii_lower_of c
  /\ ascii_upper (ascii_title_of c) || ascii_lower (ascii_title_of c)
     = ascii_upper c || ascii_lower c
  /\ ascii_upper (ascii_lower_of c) || ascii_lower (ascii_lower_of c)
     = ascii_upper c || ascii_lower c.
Proof.
  intros H.
  pose proof (ascii_forall (fun c =>
    is_ascii (ascii_title_of c) && is_ascii (ascii_lower_of c)
    && (ascii_title_of (ascii_title_of c) =? ascii_title_of c)%N
    && (ascii_lower_of (ascii_lower_of c) =? ascii_lower_of c)%N
    && eqb (ascii_upper (ascii_title_of c) || ascii_lower (ascii_title_of c))
           (ascii_upper c || ascii_lower c)
    && eqb (ascii_upper (ascii_lower_of c) || ascii_lower (ascii_lower_of c))
           (ascii_upper c || ascii_lower c)) eq_refl c H) as F.
  cbv beta in F. repeat (apply andb_prop in F as [F ?]).
  repeat split; try done; try (by apply N.eqb_eq); by apply eqb_prop.
Qed.

Lemma ascii_stable (U : ucd) (c : char) : is_ascii c = true -> stable U c.
Proof.
  intros Hc. destruct (ascii_case_facts c Hc) as (Ht & Hl & Htt & Hll & Hct & Hcl).
  exists (ascii_title_of c), (ascii_lower_of c).
  split; [by apply to_title_ascii|]. split; [intros; by apply to_lower_ascii|].
  split; [by rewrite to_title_ascii, Htt|].
  split; [intros; by rewrite to_lower_ascii, Hll|].
  by rewrite !cased_ascii, Hct, Hcl.
Qed.

Lemma space_case (U : ucd) (c : char) :
  is_space c = true ->
  cased U c = false /\ to_title U c = [c] /\ forall b a, to_lower U b c a = [c].
Proof.
  intros Hc. unfold cased, to_title, to_lower. destruct (is_ascii c) eqn:Ha; [|by rewrite Hc].
  pose proof (ascii_forall (fun c =>
    implb (is_space c) (negb (ascii_lower c) && negb (ascii_upper c))) eq_refl c Ha) as F.
  cbv beta in F. rewrite Hc in F. cbn [implb] in F. apply andb_prop in F as [F1 F2].
  apply negb_true_iff in F1, F2. by rewrite F1, F2.
Qed.

Lemma space_stable (U : ucd) (c : char) : is_space c = true -> stable U c.
Proof.
  intros Hc. destruct (space_case U c Hc) as (Hcased & Ht & Hl). by exists c, c.
Qed.

(** Title-casing a second time, from the same state, changes nothing when
    every character is stable. *)
Lemma do_title_stable_again (U : ucd) (s b1 b2 : text) (prev : bool) :
  Forall (stable U) s ->
  do_title U b2 prev (do_title U b1 prev s) = do_title U b1 prev s.
Proof.
  intros Hs. revert b1 b2 prev. induction Hs as [|c s Hc Hs IH]; intros b1 b2 prev; [done|].
  destruct Hc as (t & l & Ht & Hl & Htt & Hll & Hct & Hcl).
  cbn [do_title]. destruct prev.
  - rewrite Hl. cbn [app do_title]. rewrite Hll, Hcl. cbn [app]. by rewrite IH.
  - rewrite Ht. cbn [app do_title]. rewrite Htt, Hct. cbn [app]. by rewrite IH.
Qed.

(** C9, as the code has it.  Title-casing twice is the same as title-casing
    once for every string all of whose characters are stable: their title
    case and their lower case are single characters that the same mapping
    leaves alone and that are cased when the character is.  Every ASCII
    character and every white-space character is stable, whatever the
    Unicode tables are. *)
Theorem title_idempotent_stable (U : ucd) :
  (forall s, Forall (stable U) s -> title U (title U s) = title U s)
  /\ (forall c, is_ascii c = true \/ is_space c = true -> stable U c).
Proof.
  split.
  - intros s Hs. by apply do_title_stable_again.
  - intros c [Hc|Hc]; [by apply ascii_stable|by apply space_stable].
Qed.

Lemma title_idempotent_stable_witness :
  title ascii_only (title ascii_only (str "o'neil mc-donald 3rd"))
  = title ascii_only (str "o'neil mc-donald 3rd").
Proof.
  apply (proj1 (title_idempotent_stable ascii_only) (str "o'neil mc-donald 3rd")).
  apply Forall_forall. intros c Hc. apply ascii_stable.
  apply list_elem_of_In in Hc. vm_compute in Hc. intuition (subst; reflexivity).
Defined.

(** C9, as stated, fails.  [str.title] maps U+01F0 followed by "a" to
    U+004A U+030C "a"; the combining caron is not cased, so that a second pass
    starts a word after it and capitalises the "a". *)
Lemma title_not_idempotent :
  ~ (forall U s, title U (title U s) = title U s).
Proof.
  intros H. specialize (H caron_table [496; 97]%N). vm_compute in H. discriminate.
Qed.

(** ** The article rule *)

Lemma head_app {A} (l1 l2 : list A) :
  head (l1 ++ l2) = match head l1 with Some x => Some x | None => head l2 end.
Proof. by destruct l1. Qed.

(** The first way to match a greedy [(.+)] that ends the pattern, on text
    without line feed: all of it. *)
Lemma dot_tail_head (g : text -> list text) (taken s : text) :
  all is_dot s ->
  head (many1 is_dot true (fun t r => [(g t, r)]) taken s)
  = match s with [] => None | _ :: _ => Some (g (taken ++ s), []) end.
Proof.
  intros Hs. revert taken. induction Hs as [|c s Hc Hs IH]; intros taken; [done|].
  cbn [many1]. rewrite Hc, head_app, IH. destruct s; [done|]. by rewrite <- app_assoc.
Qed.

(** The first way to match [\s+(.+)] on text without line feed. *)
Lemma spaces_then_rest_head (taken s : text) :
  all is_dot s ->
  head (many1 is_space true
          (fun _ s' => many1 is_dot true (fun t r => [([] ++ [t], r)]) [] s') taken s)
  = match s with
    | w :: x :: rest =>
        if is_space w then Some ([lstrip_keep_last (x :: rest)], []) else None
    | _ => None
    end.
Proof.
  intros Hs. revert taken. induction Hs as [|w s Hw Hs IH]; intros taken; [done|].
  cbn [many1]. destruct (is_space w) eqn:Ew; [|by destruct s].
  rewrite head_app, IH, (dot_tail_head (fun t => [] ++ [t]) [] s Hs).
  destruct s as [|x [|y rest]]; [done|done|].
  cbn [lstrip_keep_last]. by destruct (is_space x).
Qed.

Lemma the_match (seg : text) :
  all is_dot seg ->
  re_match the_regex seg = option_map (fun r => ([r], [])) (the_remainder seg).
Proof.
  intros Hs. unfold re_match, the_regex, the_remainder. cbn [exec].
  destruct seg as [|t seg]; [done|]. destruct (lit_i 116%N t); [|by destruct seg as [|? [|? [|? [|? ?]]]]].
  destruct seg as [|h seg]; [done|]. destruct (lit_i 104%N h); [|by destruct seg as [|? [|? [|? ?]]]].
  destruct seg as [|e seg]; [done|]. destruct (lit_i 101%N e); [|by destruct seg as [|? [|? ?]]].
  cbn [andb].
  assert (all is_dot seg) as Hs' by (by do 3 apply Forall_inv_tail in Hs).
  rewrite (spaces_then_rest_head [] seg Hs').
  destruct seg as [|w [|x rest]]; [done..|]. by destruct (is_space w).
Qed.

Lemma reformat_artist_remainder (U : ucd) (seg : text) :
  all is_dot seg ->
  reformat_artist U seg
  = match the_remainder seg with
    | Some r => title U r ++ str ", The"
    | None => title U seg
    end.
Proof.
  intros Hs. unfold reformat_artist. rewrite (the_match seg Hs).
  by destruct (the_remainder seg).
Qed.

Lemma artist_segment_inv (filename seg : text) :
  artist_segment filename = Some seg ->
  seg <> [] /\ all is_dot seg
  /\ exists w1 w2 rest, filename = seg ++ w1 :: 45%N :: w2 :: rest
       /\ is_space w1 = true /\ is_space w2 = true.
Proof.
  unfold artist_segment. destruct (re_match artist_regex filename) as [m|] eqn:Hm; [|done].
  destruct (artist_match _ _ Hm) as (s & w1 & w2 & rest & -> & E & Hne & Hall & Hw1 & Hw2 & _).
  intros [= <-]. repeat split; [done..|]. by exists w1, w2, rest.
Qed.

(** C4, as the code has it.  For every extracted artist segment: when it is
    "the" in any case, white space and at least one more character, the
    result is the title-cased remainder (what follows that white space, or
    its last character when nothing else follows) and ", The"; otherwise the
    result is the segment title-cased.  "the beatles", "The Beatles" and
    "THE BEATLES" give "Beatles, The". *)
Theorem reformat_artist_rule (U : ucd) :
  (forall filename seg,
     artist_segment filename = Some seg ->
     reformat_artist U seg
     = match the_remainder seg with
       | Some r => title U r ++ str ", The"
       | None => title U seg
       end)
  /\ reformat_artist U (str "the beatles") = str "Beatles, The"
  /\ reformat_artist U (str "The Beatles") = str "Beatles, The"
  /\ reformat_artist U (str "THE BEATLES") = str "Beatles, The".
Proof.
  split; [|by repeat split].
  intros filename seg H. apply artist_segment_inv in H as (_ & Hs & _).
  by apply reformat_artist_remainder.
Qed.

Lemma reformat_artist_rule_witness :
  reformat_artist ascii_only (str "the rolling stones")
  = title ascii_only (str "rolling stones") ++ str ", The".
Proof.
  apply (proj1 (reformat_artist_rule ascii_only) (str "the rolling stones - angie.gp5")).
  reflexivity.
Defined.

(** C4, as stated, fails: a segment that starts with "the" and white space
    does not always become a remainder followed by ", The".  The file name
    ["the  - x.txt"] has the segment ["the "], which becomes ["The "]. *)
Lemma reformat_artist_the_alone :
  ~ (forall U filename seg,
       matches U filename -> artist_segment filename = Some seg ->
       starts_with_the seg = true ->
       exists rem, reformat_artist U seg = title U rem ++ str ", The").
Proof.
  intros H.
  destruct (H ascii_only (str "the  - x.txt") (str "the ")) as [rem E];
    [vm_compute; by eexists|reflexivity|reflexivity|].
  apply (f_equal length) in E. rewrite length_app in E.
  change (length (reformat_artist ascii_only (str "the "))) with 4 in E.
  change (length (str ", The")) with 5 in E. lia.
Qed.

(** ** White space in the artist name *)

Lemma do_title_spaces (U : ucd) (ws b : text) (prev : bool) :
  all is_space ws -> do_title U b prev ws = ws.
Proof.
  intros H. revert b prev. induction H as [|c ws Hc H IH]; intros b prev; [done|].
  destruct (space_case U c Hc) as (Hcased & Ht & Hl).
  cbn [do_title]. rewrite Hcased, IH, Ht, Hl. by destruct prev.
Qed.

(** Title-casing leaves trailing white space as it is. *)
Lemma do_title_trailing (U : ucd) (s ws b : text) (prev : bool) :
  all is_space ws -> exists pre, do_title U b prev (s ++ ws) = pre ++ ws.
Proof.
  intros H. revert b prev. induction s as [|c s IH]; intros b prev.
  - exists []. by apply do_title_spaces.
  - cbn [app do_title]. destruct (IH (c :: b) (cased U c)) as [pre ->].
    eexists. by rewrite app_assoc.
Qed.

Lemma lstrip_keep_last_split (s : text) :
  exists pfx, s = pfx ++ lstrip_keep_last s
    /\ match lstrip_keep_last s with
       | [] => s = []
       | c :: _ => is_space c = false \/ all is_space s
       end.
Proof.
  induction s as [|x s IH]; [by exists []|].
  cbn [lstrip_keep_last]. destruct s as [|y s].
  - exists []. split; [done|]. destruct (is_space x) eqn:E; [right|by left].
    by repeat constructor.
  - destruct (is_space x) eqn:E.
    + destruct IH as (pfx & Hs & Hh). exists (x :: pfx). split; [by rewrite <- app_comm_cons, <- Hs|].
      destruct (lstrip_keep_last (y :: s)) as [|c r]; [done|].
      destruct Hh as [Hh|Hh]; [by left|right; by constructor].
    + exists []. split; [done|by left].
Qed.

Lemma reformat_artist_trailing (U : ucd) (body ws : text) :
  all is_dot (body ++ ws) -> all is_space ws ->
  ~ (starts_with_the (body ++ ws) = true /\ all is_space (drop 3 (body ++ ws))) ->
  exists pre post,
    reformat_artist U (body ++ ws) = pre ++ ws ++ post /\ (post = [] \/ post = str ", The").
Proof.
  intros Hdot Hws Hn. rewrite (reformat_artist_remainder U _ Hdot).
  destruct (the_remainder (body ++ ws)) as [r|] eqn:Hr.
  - assert (exists r0, r = r0 ++ ws) as [r0 ->].
    { unfold the_remainder in Hr.
      destruct (body ++ ws) as [|t [|h [|e [|w [|x rest]]]]] eqn:E; try discriminate.
      destruct (_ && is_space w) eqn:Hthe; [|discriminate].
      destruct (lstrip_keep_last_split (x :: rest)) as (pfx & Hs & Hh).
      destruct (lstrip_keep_last (x :: rest)) as [|c r'] eqn:Hl; [discriminate|].
      injection Hr as <-.
      assert (is_space c = false) as Hc.
      { destruct Hh as [Hh|Hh]; [done|]. exfalso. apply Hn. split; [exact Hthe|].
        cbn [drop]. constructor; [|exact Hh].
        apply andb_prop in Hthe as [_ Hw]. exact Hw. }
      assert (body ++ ws = (t :: h :: e :: w :: pfx) ++ c :: r') as E'
        by (rewrite E, Hs; reflexivity).
      apply app_eq_inv in E' as [(k & _ & Hk)|(k & _ & Hk)]; [by exists k|].
      exfalso. rewrite Hk in Hws. apply Forall_app in Hws as [_ Hws].
      apply Forall_inv in Hws. congruence. }
    destruct (do_title_trailing U r0 ws [] false Hws) as [pre Hpre].
    exists pre, (str ", The"). unfold title. rewrite Hpre. split; [by rewrite <- app_assoc|by right].
  - destruct (do_title_trailing U body ws [] false Hws) as [pre Hpre].
    exists pre, []. unfold title. rewrite Hpre, app_nil_r. split; [done|by left].
Qed.

(** C10, as the code has it.  Extraction does not trim: the segment is the
    file name up to the separator, white space included.  Trailing white
    space of the segment appears as it is in the artist name, at the end or
    before ", The", unless the segment is "the" followed by white space only.
    ["   - B.ext"] passes the check and its artist is two spaces; the folder
    made for it is named by these two spaces. *)
Theorem artist_keeps_whitespace (U : ucd) :
  (forall filename, matches U filename ->
     exists seg w1 w2 rest artist,
       artist_segment filename = Some seg
       /\ filename = seg ++ w1 :: 45%N :: w2 :: rest
       /\ get_artist U filename = inr artist
       /\ forall body ws,
            seg = body ++ ws -> all is_space ws ->
            ~ (starts_with_the seg = true /\ all is_space (drop 3 seg)) ->
            exists pre post,
              artist = pre ++ ws ++ post /\ (post = [] \/ post = str ", The"))
  /\ (matches U (str "   - B.ext")
      /\ get_artist U (str "   - B.ext") = inr (str "  ")
      /\ all is_space (str "  ")
      /\ (forall out, rparts (joinpath out (str "  ")) = str "  " :: rparts out)
      /\ forall clk n,
           let d : fs := {[ mkPath 1 [] := Dir true; mkPath 1 [str "out"] := Dir true ]} in
           exists d',
             create_folder (str "  ") (parse (str "/out")) (mkWorld d [] clk n)
             = (inr (mkPath 1 [str "  "; str "out"]), mkWorld d' [] clk n)
             /\ d' !! mkPath 1 [str "  "; str "out"] = Some (Dir true)).
Proof.
  split.
  - intros filename Hm. destruct (matches_artist_match _ _ Hm) as [m Hmatch].
    destruct (artist_match _ _ Hmatch) as (seg & w1 & w2 & rest & -> & E & _).
    assert (artist_segment filename = Some seg) as Hseg
      by (unfold artist_segment; by rewrite Hmatch).
    exists seg, w1, w2, rest, (reformat_artist U seg).
    split; [done|]. split; [done|]. split; [unfold get_artist; by rewrite Hmatch|].
    intros body ws -> Hws Hn. apply artist_segment_inv in Hseg as (_ & Hdot & _).
    by apply reformat_artist_trailing.
  - split; [vm_compute; by eexists|]. split; [reflexivity|].
    split; [by repeat constructor|]. split; [reflexivity|].
    intros clk n d. eexists. split; [vm_compute; reflexivity|]. vm_compute. reflexivity.
Qed.

Lemma artist_keeps_whitespace_witness :
  exists seg w1 w2 rest artist,
    artist_segment (str "A  - B.ext") = Some seg
    /\ str "A  - B.ext" = seg ++ w1 :: 45%N :: w2 :: rest
    /\ get_artist ascii_only (str "A  - B.ext") = inr artist
    /\ forall body ws,
         seg = body ++ ws -> all is_space ws ->
         ~ (starts_with_the seg = true /\ all is_space (drop 3 seg)) ->
         exists pre post,
           artist = pre ++ ws ++ post /\ (post = [] \/ post = str ", The").
Proof.
  apply (proj1 (artist_keeps_whitespace ascii_only) (str "A  - B.ext")).
  vm_compute. eexists. reflexivity.
Defined.

(** C10, as stated, fails: the white space the segment keeps does not always
    appear as it is in the folder name.  In ["the    - B.ext"] the segment is
    "the" and three spaces; the article rule turns it into [" , The"], which
    has one of the three. *)
Lemma artist_whitespace_not_verbatim :
  ~ (forall U filename seg body ws artist,
       matches U filename -> artist_segment filename = Some seg ->
       seg = body ++ ws -> ws <> [] -> all is_space ws ->
       get_artist U filename = inr artist ->
       exists pre post, artist = pre ++ ws ++ post).
Proof.
  intros H.
  destruct (H ascii_only (str "the    - B.ext") (str "the   ") (str "the") (str "   ")
              (str " , The")) as (pre & post & E);
    [vm_compute; by eexists|reflexivity|reflexivity|discriminate
    |by repeat constructor|reflexivity|].
  apply (f_equal (fun l => length (List.filter (N.eqb 32) l))) in E.
  rewrite !List.filter_app, !length_app in E.
  change (length (List.filter (N.eqb 32) (str " , The"))) with 2 in E.
  change (length (List.filter (N.eqb 32) (str "   "))) with 3 in E. lia.
Qed.

(** ** Paths *)

Lemma ancestors_shorter (rt : N) (rp : list text) (p : Path) :
  p ∈ ancestors rt rp -> length (rparts p) < length rp.
Proof.
  induction rp as [|c rp IH]; cbn [ancestors]; [by intros ?%elem_of_nil|].
  intros [->|H]%elem_of_cons; simpl; [lia|]. specialize (IH H). lia.
Qed.

Lemma nested_not_in_parents (input_dir output_dir : Path) :
  nested input_dir output_dir -> output_dir ∉ parents input_dir.
Proof.
  intros [->|H] Hin; apply ancestors_shorter in Hin; [lia|].
  apply ancestors_shorter in H. lia.
Qed.

(** C1: what the code does.  When the output path is the input path or a
    descendant of it, the check of [organize_tabs] does not fire: the run is
    not aborted and goes on to list and store the files. *)
Theorem organize_tabs_nested_output_runs (U : ucd) (input output : text) (w : world) :
  nested (parse input) (parse output) ->
  organize_tabs U input output w = store_all U (parse input) (parse output) w.
Proof.
  intros H. unfold organize_tabs.
  by rewrite bool_decide_eq_false_2 by by apply nested_not_in_parents.
Qed.

Lemma organize_tabs_nested_output_witness :
  organize_tabs ascii_only (str "/in") (str "/in/out") (mkWorld sample_disk [] (fun _ => sample_time) 0)
  = store_all ascii_only (parse (str "/in")) (parse (str "/in/out"))
      (mkWorld sample_disk [] (fun _ => sample_time) 0).
Proof.
  apply organize_tabs_nested_output_runs.
  right. apply list_elem_of_In. vm_compute. by left.
Defined.

(** At the input ["/in"] with the output ["/in/out"] the run ends with exit
    status 0 and has moved the file below the input directory; the check
    fires for the output ["/"], an ancestor of the input. *)
Example organize_tabs_output_inside_input :
  let r := organize_tabs ascii_only (str "/in") (str "/in/out")
             (mkWorld sample_disk [] (fun _ => sample_time) 0) in
  exit_status (fst r) = 0%N
  /\ log (snd r) = [LogMoved (str "Metallica - One.gp5") (parse (str "/in/out/Metallica"));
                    LogComplete]
  /\ disk (snd r) !! parse (str "/in/out/Metallica/Metallica - One.gp5") = Some (File 1)
  /\ disk (snd r) !! parse (str "/in/Metallica - One.gp5") = None.
Proof. vm_compute. repeat split. Qed.

Example organize_tabs_output_above_input :
  organize_tabs ascii_only (str "/in") (str "/")
    (mkWorld sample_disk [] (fun _ => sample_time) 0)
  = (inl (SystemExit 1), mkWorld sample_disk [LogAbort] (fun _ => sample_time) 0).
Proof. vm_compute. reflexivity. Qed.

(** ** The collision name *)

Lemma below_forall (bound : N) (P : N -> bool) :
  forallb P (map N.of_nat (seq 0 (N.to_nat bound))) = true ->
  forall n, (n < bound)%N -> P n = true.
Proof.
  intros H n Hn. rewrite forallb_forall in H. apply H.
  rewrite <- (N2Nat.id n). apply in_map, in_seq. lia.
Qed.

Lemma zfill_two_digits (n : N) :
  (n < 100)%N -> zfill 2 (decimal n) = two_digits n.
Proof.
  intros Hn.
  assert (forallb (fun n => bool_decide (zfill 2 (decimal n) = two_digits n))
            (map N.of_nat (seq 0 (N.to_nat 100))) = true) as H by (vm_compute; reflexivity).
  apply (below_forall 100 _ H n) in Hn. by apply bool_decide_eq_true in Hn.
Qed.

Lemma decimal_four_digits (n : N) :
  (1000 <= n <= 9999)%N -> decimal n = four_digits n.
Proof.
  intros Hn.
  assert (forallb (fun n => (n <? 1000)%N || bool_decide (decimal n = four_digits n))
            (map N.of_nat (seq 0 (N.to_nat 10000))) = true) as H by (vm_compute; reflexivity).
  assert (n < 10000)%N as Hlt by lia.
  apply (below_forall 10000 _ H n) in Hlt. apply orb_prop in Hlt as [Hlt|Hlt].
  - apply N.ltb_lt in Hlt. lia.
  - by apply bool_decide_eq_true in Hlt.
Qed.

(** The suffix [strftime] builds from a reading of the wall clock. *)
Lemma timestamp_format (t : datetime) :
  wall_clock t ->
  timestamp t
  = str "_" ++ two_digits (day t) ++ two_digits (month t) ++ four_digits (year t)
      ++ str "_" ++ two_digits (hour t) ++ two_digits (minute t) ++ two_digits (second t).
Proof.
  intros (Hy & Hm & Hd & Hh & Hmi & Hs). unfold timestamp.
  rewrite !zfill_two_digits by lia. by rewrite decimal_four_digits.
Qed.

Lemma stem_suffix (p : Path) : stem p ++ suffix p = name p.
Proof.
  unfold stem, suffix. destruct (splits_name (name p)); [apply take_drop|apply app_nil_r].
Qed.

Lemma split_slash_plain (s : text) : ~ In slash s -> split_slash s = [s].
Proof.
  induction s as [|c s IH]; [done|]. intros Hn. cbn [split_slash].
  destruct (c =? slash)%N eqn:E; [apply N.eqb_eq in E; exfalso; apply Hn; by left|].
  rewrite IH; [done|]. intros H. apply Hn. by right.
Qed.

Lemma parse_plain (n : text) : plain n -> parse n = mkPath 0 [n].
Proof.
  intros (Hne & Hs & Hd & _). unfold parse.
  assert (lstrip_slash n = (O, n)) as ->.
  { destruct n as [|c n]; [done|]. cbn [lstrip_slash].
    destruct (c =? slash)%N eqn:E; [|done]. apply N.eqb_eq in E. exfalso. apply Hs. by left. }
  cbn [fst snd]. rewrite (split_slash_plain n Hs). cbn [List.filter]. unfold kept_part.
  rewrite !bool_decide_eq_false_2 by done. reflexivity.
Qed.

Lemma joinpath_plain (p : Path) (n : text) :
  plain n -> joinpath p n = mkPath (root p) (n :: rparts p).
Proof. intros H. unfold joinpath. by rewrite (parse_plain n H). Qed.

Lemma resolve_plain (rt : N) (n : text) (up : list text) :
  plain n ->
  resolve (mkPath rt (n :: up)) = mkPath rt (n :: rparts (resolve (mkPath rt up))).
Proof.
  intros (_ & _ & _ & Hdd). unfold resolve. cbn [root rparts resolve_parts].
  by rewrite bool_decide_eq_false_2.
Qed.

Lemma decimal_digits_chars (fuel : nat) (n : N) (acc : text) :
  all stamp_char acc -> all stamp_char (decimal_digits fuel n acc).
Proof.
  revert n acc. induction fuel as [|fuel IH]; intros n acc Hacc; [done|].
  cbn [decimal_digits].
  assert (all stamp_char ((48 + n mod 10)%N :: acc)) as H.
  { constructor; [|done]. unfold stamp_char, in_range.
    assert (n mod 10 < 10)%N as Hlt by (by apply N.mod_lt).
    apply orb_true_intro. left.
    apply andb_true_intro. split; apply N.leb_le; [apply N.le_add_r|].
    generalize dependent (n mod 10)%N. intros m Hm. lia. }
  destruct (n <? 10)%N; [done|by apply IH].
Qed.

Lemma zfill_chars (width : nat) (t : text) : all stamp_char t -> all stamp_char (zfill width t).
Proof.
  intros H. unfold zfill. apply Forall_app. split; [|done].
  apply Forall_forall. intros c Hc%list_elem_of_In%repeat_spec. by subst.
Qed.

Lemma decimal_chars (n : N) : all stamp_char (decimal n).
Proof. apply decimal_digits_chars. constructor. Qed.

Lemma timestamp_chars (t : datetime) :
  all stamp_char (timestamp t) /\ In 95%N (timestamp t).
Proof.
  split; [|by left]. unfold timestamp.
  apply Forall_app_2; [by repeat constructor|].
  apply Forall_app_2; [apply zfill_chars, decimal_chars|].
  apply Forall_app_2; [apply zfill_chars, decimal_chars|].
  apply Forall_app_2; [apply decimal_chars|].
  apply Forall_app_2; [by repeat constructor|].
  apply Forall_app_2; [apply zfill_chars, decimal_chars|].
  apply Forall_app_2; [apply zfill_chars, decimal_chars|].
  apply zfill_chars, decimal_chars.
Qed.

Lemma plain_with_timestamp (p : Path) (t : datetime) :
  plain (name p) -> plain (stem p ++ timestamp t ++ suffix p).
Proof.
  intros (_ & Hs & _). destruct (timestamp_chars t) as [Hchars Hu].
  assert (In 95%N (stem p ++ timestamp t ++ suffix p)) as Hin
    by (apply in_or_app; right; apply in_or_app; by left).
  repeat split.
  - intros E. rewrite E in Hin. destruct Hin.
  - rewrite !in_app_iff. intros [H|[H|H]].
    + apply Hs. rewrite <- (stem_suffix p). apply in_or_app. by left.
    + unfold all in Hchars. rewrite Forall_forall in Hchars.
      apply list_elem_of_In, Hchars in H. discriminate.
    + apply Hs. rewrite <- (stem_suffix p). apply in_or_app. by right.
  - intros E. rewrite E in Hin. vm_compute in Hin. intuition discriminate.
  - intros E. rewrite E in Hin. vm_compute in Hin. intuition discriminate.
Qed.

Lemma rfind_dot_none (s : text) : ~ In 46%N s -> rfind_dot s = None.
Proof.
  induction s as [|c s IH]; [done|]. intros Hn. cbn [rfind_dot].
  rewrite IH by (intros H; apply Hn; by right).
  destruct (c =? 46)%N eqn:E; [|done]. apply N.eqb_eq in E. exfalso. apply Hn. by left.
Qed.

Lemma rfind_dot_last (x ext : text) :
  ~ In 46%N ext -> rfind_dot (x ++ 46%N :: ext) = Some (length x).
Proof.
  intros Hn. induction x as [|c x IH].
  - cbn [app rfind_dot length]. by rewrite (rfind_dot_none ext Hn).
  - cbn [app rfind_dot length]. by rewrite IH.
Qed.

Lemma splits_name_last (x ext : text) :
  x <> [] -> ext <> [] -> ~ In 46%N ext ->
  splits_name (x ++ 46%N :: ext) = Some (length x).
Proof.
  intros Hx Hext Hn. unfold splits_name. rewrite (rfind_dot_last x ext Hn).
  match goal with |- context [if ?b then _ else _] => destruct b eqn:Hb end; [done|].
  exfalso. apply andb_false_iff in Hb as [Hb|Hb]; apply Nat.ltb_ge in Hb.
  - destruct x; [done|simpl in Hb; lia].
  - rewrite length_app in Hb. destruct ext; [done|simpl in Hb; lia].
Qed.

(** The suffix of a structurally matching name is its extension: the last
    dot and the word characters after it. *)
Lemma suffix_extension (U : ucd) (p : Path) :
  matches U (name p) ->
  exists ext, suffix p = 46%N :: ext /\ ext <> [] /\ all (is_word U) ext.
Proof.
  intros H. apply fullmatch_shape in H
    as (a & w1 & w2 & b & ext & E & Ha & _ & _ & _ & _ & _ & Hext & Hword).
  exists ext. split; [|done].
  assert (~ In 46%N ext) as Hn.
  { intros Hin. unfold all in Hword. rewrite Forall_forall in Hword.
    apply list_elem_of_In, Hword in Hin. discriminate. }
  assert (name p = (a ++ [w1; 45%N; w2] ++ b) ++ 46%N :: ext) as E'
    by (rewrite E, <- !app_assoc; reflexivity).
  unfold suffix. rewrite E', splits_name_last; [by rewrite drop_app_length| |done..].
  by destruct a.
Qed.


(** ** Collisions *)

Lemma rparts_plain_name (p : Path) :
  plain (name p) -> p = mkPath (root p) (name p :: List.tl (rparts p)).
Proof.
  intros (Hne & _). destruct p as [rt [|n up]]; [done|reflexivity].
Qed.

Lemma resolve_name (p : Path) :
  plain (name p) -> exists up, resolve p = mkPath (root p) (name p :: up).
Proof.
  intros Hp. destruct p as [rt [|n up]]; [by destruct Hp|].
  cbn [name rparts List.hd root] in *. rewrite (resolve_plain _ _ _ Hp). by eexists.
Qed.

Lemma resolve_joinpath (dir : Path) (n : text) :
  plain n -> resolve (joinpath dir n) = mkPath (root dir) (n :: rparts (resolve dir)).
Proof.
  intros Hp. rewrite (joinpath_plain dir n Hp), (resolve_plain _ _ _ Hp).
  by destruct dir.
Qed.


(** ** The file system *)

Lemma os_stat_inr (d : fs) (p : Path) (n : node) :
  os_stat d p = inr n <-> barred d (resolve p) = false /\ d !! resolve p = Some n.
Proof.
  unfold os_stat. destruct (barred d (resolve p)); [by split; [|intros []]|].
  destruct (d !! resolve p); split; [by intros [= ->]|by intros [_ [= ->]]|done|by intros []].
Qed.

Lemma os_stat_inl (d : fs) (p : Path) (e : exn) :
  os_stat d p = inl e ->
  (e = PermissionError /\ barred d (resolve p) = true)
  \/ (e = FileNotFoundError /\ barred d (resolve p) = false /\ d !! resolve p = None).
Proof.
  unfold os_stat. destruct (barred d (resolve p)); [intros [= <-]; by left|].
  destruct (d !! resolve p); [done|]. intros [= <-]. by right.
Qed.

Lemma stat_Some (d : fs) (p : Path) (n : node) :
  stat d p = Some n <-> barred d (resolve p) = false /\ d !! resolve p = Some n.
Proof.
  rewrite <- os_stat_inr. unfold stat. destruct (os_stat d p); split; by intros [= ->].
Qed.

Lemma stat_open (d : fs) (p : Path) :
  barred d (resolve p) = false -> stat d p = d !! resolve p.
Proof. intros H. unfold stat, os_stat. rewrite H. by destruct (d !! resolve p). Qed.

Lemma probe_inr (q : node -> bool) (d : fs) (p : Path) (b : bool) :
  probe q d p = inr b ->
  barred d (resolve p) = false
  /\ b = match d !! resolve p with Some n => q n | None => false end.
Proof.
  unfold probe. destruct (os_stat d p) as [e|n] eqn:H.
  - apply os_stat_inl in H as [[-> _]|(-> & Hb & Hn)]; [done|]. intros [= <-]. by rewrite Hn.
  - apply os_stat_inr in H as [Hb Hn]. intros [= <-]. by rewrite Hn.
Qed.

Lemma probe_open (q : node -> bool) (d : fs) (p : Path) :
  barred d (resolve p) = false ->
  probe q d p = inr (match d !! resolve p with Some n => q n | None => false end).
Proof.
  intros H. unfold probe, os_stat. rewrite H. by destruct (d !! resolve p).
Qed.

Lemma probe_inl (q : node -> bool) (d : fs) (p : Path) (e : exn) :
  probe q d p = inl e -> e = PermissionError /\ barred d (resolve p) = true.
Proof.
  unfold probe. destruct (os_stat d p) as [e'|n] eqn:H; [|done].
  apply os_stat_inl in H as [[-> Hb]|(-> & _)]; [|done]. by intros [= <-].
Qed.

(** [exists] returns what is at the path, when it returns. *)
Lemma path_exists_inr (d : fs) (p : Path) (b : bool) :
  path_exists d p = inr b -> barred d (resolve p) = false /\ exists_at d p = b.
Proof.
  intros [Hb ->]%probe_inr. split; [done|]. unfold exists_at. rewrite (stat_open _ _ Hb).
  by destruct (d !! resolve p).
Qed.

Lemma exists_at_true (d : fs) (p : Path) : exists_at d p = true -> path_exists d p = inr true.
Proof.
  unfold exists_at. destruct (stat d p) as [n|] eqn:H; [|done]. intros _.
  apply stat_Some in H as [Hb Hn]. unfold path_exists. by rewrite (probe_open _ _ _ Hb), Hn.
Qed.

Lemma exists_at_false (d : fs) (p : Path) :
  exists_at d p = false -> barred d (resolve p) = false -> d !! resolve p = None.
Proof.
  unfold exists_at. intros H Hb. rewrite (stat_open _ _ Hb) in H. by destruct (d !! resolve p).
Qed.

Lemma path_is_file_inr (d : fs) (p : Path) (b : bool) :
  path_is_file d p = inr b -> is_file_at d p = b.
Proof.
  intros [Hb ->]%probe_inr. unfold is_file_at. by rewrite (stat_open _ _ Hb).
Qed.

Lemma path_is_dir_inr (d : fs) (p : Path) (b : bool) :
  path_is_dir d p = inr b -> is_dir_at d p = b.
Proof.
  intros [Hb ->]%probe_inr. unfold is_dir_at. rewrite (stat_open _ _ Hb).
  by destruct (d !! resolve p) as [[| |]|].
Qed.

Lemma only_files_inr (d : fs) (entries files : list Path) :
  only_files d entries = inr files -> files = List.filter (is_file_at d) entries.
Proof.
  revert files. induction entries as [|f rest IH]; intros files; cbn [only_files List.filter].
  - by intros [= <-].
  - destruct (path_is_file d f) as [e|b] eqn:Hf; [done|].
    destruct (only_files d rest) as [e|fs'] eqn:Hr; [done|]. intros [= <-].
    rewrite (path_is_file_inr _ _ _ Hf), (IH _ eq_refl). by destruct b.
Qed.

(** Which directories may not be searched decides what is barred. *)
Lemma barred_ext (d d' : fs) (k : Path) :
  (forall a, shut_at d' a = shut_at d a) -> barred d' k = barred d k.
Proof.
  intros H. unfold barred. induction (parents k) as [|a l IH]; [done|].
  cbn [existsb]. by rewrite H, IH.
Qed.

Lemma shut_at_insert (d : fs) (k a : Path) (v : node) :
  d !! k <> Some Shut -> v <> Shut -> shut_at (<[k := v]> d) a = shut_at d a.
Proof.
  intros Hk Hv. unfold shut_at. destruct (decide (a = k)) as [->|Hne].
  - rewrite lookup_insert_eq. rewrite !bool_decide_eq_false_2; [done..|congruence].
  - by rewrite lookup_insert_ne.
Qed.

Lemma shut_at_delete (d : fs) (k a : Path) :
  d !! k <> Some Shut -> shut_at (delete k d) a = shut_at d a.
Proof.
  intros Hk. unfold shut_at. destruct (decide (a = k)) as [->|Hne].
  - rewrite lookup_delete_eq. by rewrite !bool_decide_eq_false_2.
  - by rewrite lookup_delete_ne.
Qed.

Lemma barred_insert (d : fs) (k a : Path) (v : node) :
  d !! k <> Some Shut -> v <> Shut -> barred (<[k := v]> d) a = barred d a.
Proof. intros Hk Hv. apply barred_ext. intros b. by apply shut_at_insert. Qed.

(** Moving a regular file bars nothing and opens nothing. *)
Lemma barred_rename (d : fs) (ks kd a : Path) (c c' : N) :
  d !! ks = Some (File c) -> d !! kd <> Some Shut ->
  barred (<[kd := File c']> (delete ks d)) a = barred d a.
Proof.
  intros Hs Hd. apply barred_ext. intros b.
  rewrite shut_at_insert; [|destruct (decide (kd = ks)) as [->|Hne];
    [by rewrite lookup_delete_eq|by rewrite lookup_delete_ne]|done].
  apply shut_at_delete. congruence.
Qed.

Lemma barred_child (d : fs) (rt : N) (n : text) (up : list text) :
  barred d (mkPath rt (n :: up)) = shut_at d (mkPath rt up) || barred d (mkPath rt up).
Proof. reflexivity. Qed.

(** What a successful rename of a regular file leaves on the disk. *)
Lemma os_rename_inr (d d' : fs) (src dst : Path) (c : N) :
  os_rename d src dst = inr d' ->
  d !! resolve src = Some (File c) ->
  resolve src <> resolve dst ->
  d' = <[resolve dst := File c]> (delete (resolve src) d)
  /\ barred d (resolve src) = false /\ barred d (resolve dst) = false
  /\ d !! resolve dst <> Some Shut.
Proof.
  unfold os_rename. intros H Hsrc Hne.
  destruct (barred d (resolve src)); [done|]. destruct (barred d (resolve dst)); [done|].
  cbn [orb] in H. rewrite Hsrc in H.
  destruct (d !! parent (resolve src)) as [[?|ws|]|]; try discriminate;
    destruct (d !! parent (resolve dst)) as [[?|wd|]|]; try discriminate.
  rewrite bool_decide_eq_false_2 in H by done.
  destruct (negb (ws && wd)); [discriminate|].
  destruct (d !! resolve dst) as [[?|?|]|]; by simplify_eq.
Qed.

Lemma os_rename_source (d d' : fs) (src dst : Path) :
  os_rename d src dst = inr d' -> exists c, d !! resolve src = Some (File c).
Proof.
  unfold os_rename. destruct (barred d (resolve src) || barred d (resolve dst)); [done|].
  destruct (d !! resolve src) as [[c| |]|]; try done. by exists c.
Qed.

(** [move_file] as one step: [exists] may raise; when it returns, the
    target is the candidate, or the name with the timestamp when the
    candidate exists; the rename is tried once and its failure is logged. *)
Lemma move_file_eq (filepath output_dir : Path) (w : world) :
  move_file filepath output_dir w
  = let candidate := joinpath output_dir (name filepath) in
    match path_exists (disk w) candidate with
    | inl e => (inl e, w)
    | inr true =>
        let target := joinpath output_dir
                        (stem filepath ++ timestamp (clock w (ticks w)) ++ suffix filepath) in
        match os_rename (disk w) filepath target with
        | inr d =>
            (inr tt, mkWorld d (log w ++ [LogExists (name filepath) (name target);
                                          LogMoved (name filepath) (parent target)])
                       (clock w) (S (ticks w)))
        | inl e =>
            (inr tt, mkWorld (disk w)
                       (log w ++ [LogExists (name filepath) (name target);
                                  LogFailed (name filepath) (parent target) e])
                       (clock w) (S (ticks w)))
        end
    | inr false =>
        match os_rename (disk w) filepath candidate with
        | inr d =>
            (inr tt, mkWorld d (log w ++ [LogMoved (name filepath) (parent candidate)])
                       (clock w) (ticks w))
        | inl e =>
            (inr tt, mkWorld (disk w) (log w ++ [LogFailed (name filepath) (parent candidate) e])
                       (clock w) (ticks w))
        end
    end.
Proof.
  unfold move_file, bind, call, now, emit, ret, try_except, syscall. cbn [disk log clock ticks].
  destruct (path_exists (disk w) _) as [e|[|]]; cbn [disk log clock ticks]; [done|..];
    destruct (os_rename _ _ _); cbn [disk log clock ticks]; try rewrite <- app_assoc; try done.
  all: by destruct w.
Qed.

(** C7.  When something exists at the candidate path, the clock is read once
    and one alternative name is built: the stem, an underscore, day, month
    and year as two, two and four digits, an underscore, hour, minute and
    second as two digits each, and the suffix, which for a tablature is its
    extension.  The rename to that name is tried once, whatever is there;
    its outcome is logged and nothing else is tried. *)
Theorem collision_timestamped_name (filepath output_dir : Path) (w : world) :
  exists_at (disk w) (joinpath output_dir (name filepath)) = true ->
  wall_clock (clock w (ticks w)) ->
  let t := clock w (ticks w) in
  let alt := stem filepath ++ timestamp t ++ suffix filepath in
  timestamp t
  = str "_" ++ two_digits (day t) ++ two_digits (month t) ++ four_digits (year t)
      ++ str "_" ++ two_digits (hour t) ++ two_digits (minute t) ++ two_digits (second t)
  /\ stem filepath ++ suffix filepath = name filepath
  /\ (forall U, matches U (name filepath) ->
        exists ext, suffix filepath = 46%N :: ext /\ ext <> [] /\ all (is_word U) ext)
  /\ (plain (name filepath) ->
        joinpath output_dir alt = mkPath (root output_dir) (alt :: rparts output_dir))
  /\ move_file filepath output_dir w
     = match os_rename (disk w) filepath (joinpath output_dir alt) with
       | inr d =>
           (inr tt,
            mkWorld d
              (log w ++ [LogExists (name filepath) (name (joinpath output_dir alt));
                         LogMoved (name filepath) (parent (joinpath output_dir alt))])
              (clock w) (S (ticks w)))
       | inl e =>
           (inr tt,
            mkWorld (disk w)
              (log w ++ [LogExists (name filepath) (name (joinpath output_dir alt));
                         LogFailed (name filepath) (parent (joinpath output_dir alt)) e])
              (clock w) (S (ticks w)))
       end.
Proof.
  intros Hex Hclock t alt. split; [by apply timestamp_format|].
  split; [apply stem_suffix|]. split; [intros U; apply suffix_extension|].
  split; [intros Hp; by apply joinpath_plain, plain_with_timestamp|].
  rewrite move_file_eq. cbv zeta. by rewrite (exists_at_true _ _ Hex).
Qed.

Lemma collision_timestamped_name_witness :
  timestamp sample_time = str "_07032024_090500"
  /\ stem (parse (str "/in/Metallica - One.gp5")) ++ suffix (parse (str "/in/Metallica - One.gp5"))
     = str "Metallica - One.gp5".
Proof.
  pose proof (collision_timestamped_name (parse (str "/in/Metallica - One.gp5"))
                (parse (str "/out/Metallica"))
                (mkWorld collision_disk [] (fun _ => sample_time) 0)) as H.
  cbv zeta in H. destruct H as (H1 & H2 & _).
  - vm_compute. reflexivity.
  - unfold wall_clock. cbn. lia.
  - split; [exact H1|exact H2].
Defined.

Lemma failed_not_moved (f : text) (p : Path) (e : exn) (w : world) :
  last (log w) = Some (LogFailed f p e) -> ~ moved w.
Proof. intros E (file & folder & H). rewrite E in H. discriminate. Qed.

(** A placement that reports the move has renamed the file to its target. *)
Lemma move_file_moved (filepath dir : Path) (w w' : world) :
  move_file filepath dir w = (inr tt, w') -> moved w' ->
  let candidate := joinpath dir (name filepath) in
  let target :=
    if exists_at (disk w) candidate then
      joinpath dir (stem filepath ++ timestamp (clock w (ticks w)) ++ suffix filepath)
    else candidate in
  os_rename (disk w) filepath target = inr (disk w') /\ clock w' = clock w
  /\ ticks w' = (if exists_at (disk w) candidate then S (ticks w) else ticks w).
Proof.
  intros H Hm. rewrite move_file_eq in H. cbv zeta in *.
  destruct (path_exists (disk w) (joinpath dir (name filepath))) as [e|taken] eqn:Hx; [done|].
  apply path_exists_inr in Hx as [_ ->].
  destruct taken; destruct (os_rename _ _ _) as [e|d]; injection H as <-; try done.
  - exfalso. eapply failed_not_moved; [|exact Hm]. cbn [log]. by rewrite last_app.
  - exfalso. eapply failed_not_moved; [|exact Hm]. cbn [log]. by rewrite last_app.
Qed.

Lemma longer_with_timestamp (p : Path) (t : datetime) :
  stem p ++ timestamp t ++ suffix p <> name p.
Proof.
  intros E. apply (f_equal length) in E. rewrite <- (stem_suffix p) in E.
  rewrite !length_app in E. unfold timestamp in E. rewrite length_app in E.
  change (length (str "_")) with 1 in E. lia.
Qed.

(** C3, as the code has it.  Two distinct files of the same name are placed
    in a folder where the name is free: when both placements report the
    move, the first file is there under its name and the second under the
    name with the timestamp of the second placement; and when nothing was at
    that timestamped path, every other file of the disk is where it was. *)
Theorem collision_keeps_both_files (src1 src2 dir : Path) (c1 c2 : N) (w w1 w2 : world) :
  plain (name src1) -> name src2 = name src1 ->
  resolve src1 <> resolve src2 ->
  stat (disk w) src1 = Some (File c1) -> stat (disk w) src2 = Some (File c2) ->
  exists_at (disk w) (joinpath dir (name src1)) = false ->
  move_file src1 dir w = (inr tt, w1) -> moved w1 ->
  move_file src2 dir w1 = (inr tt, w2) -> moved w2 ->
  let alt := stem src2 ++ timestamp (clock w (ticks w)) ++ suffix src2 in
  stat (disk w2) (joinpath dir (name src1)) = Some (File c1)
  /\ stat (disk w2) (joinpath dir alt) = Some (File c2)
  /\ name (joinpath dir (name src1)) = name src1
  /\ name (joinpath dir alt) = alt
  /\ (exists_at (disk w) (joinpath dir alt) = false ->
      forall p c, resolve p <> resolve src1 -> resolve p <> resolve src2 ->
        stat (disk w) p = Some (File c) -> stat (disk w2) p = Some (File c)).
Proof.
  intros Hp Hn Hne Hs1 Hs2 Hfree Hm1 Hmv1 Hm2 Hmv2 alt.
  assert (plain (name src2)) as Hp2 by by rewrite Hn.
  assert (plain alt) as Hpa by by apply plain_with_timestamp.
  assert (alt <> name src1) as Hlen by (rewrite <- Hn; apply longer_with_timestamp).
  apply stat_Some in Hs1 as [Hb1 Hs1]. apply stat_Some in Hs2 as [Hb2 Hs2].
  destruct (resolve_name src1 Hp) as [up1 Hk1]. destruct (resolve_name src2 Hp2) as [up2 Hk2].
  rewrite Hn in Hk2.
  pose proof (resolve_joinpath dir (name src1) Hp) as Hkc.
  pose proof (resolve_joinpath dir alt Hpa) as Hka.
  (* the first placement *)
  destruct (move_file_moved _ _ _ _ Hm1 Hmv1) as (Hr1 & Hclk1 & Htk1).
  rewrite Hfree in Hr1, Htk1.
  set (k1 := resolve src1) in *. set (k2 := resolve src2) in *.
  set (kc := resolve (joinpath dir (name src1))) in *.
  set (ka := resolve (joinpath dir alt)) in *.
  assert (ka <> kc) as Hac by (rewrite Hka, Hkc; congruence).
  assert (ka <> k1) as Ha1 by (rewrite Hka, Hk1; congruence).
  assert (ka <> k2) as Ha2 by (rewrite Hka, Hk2; congruence).
  assert (barred (disk w) kc = false) as Hbc.
  { destruct (os_rename_source _ _ _ _ Hr1) as [c Hc].
    unfold os_rename in Hr1. fold k1 kc in Hr1.
    by destruct (barred (disk w) k1), (barred (disk w) kc). }
  assert (disk w !! kc = None) as Hc by (by apply exists_at_false).
  assert (k1 <> kc) as H1c by (intros E; rewrite E, Hc in Hs1; discriminate).
  assert (k2 <> kc) as H2c by (intros E; rewrite E, Hc in Hs2; discriminate).
  apply (os_rename_inr _ _ _ _ c1) in Hr1 as (Hr1 & _ & _ & _); [|exact Hs1|exact H1c].
  fold k1 kc in Hr1.
  assert (forall a, barred (disk w1) a = barred (disk w) a) as Hbar1.
  { intros a. rewrite Hr1. apply (barred_rename _ _ _ _ c1); [done|]. by rewrite Hc. }
  (* the second placement *)
  destruct (move_file_moved _ _ _ _ Hm2 Hmv2) as (Hr2 & _ & _).
  rewrite Hn in Hr2.
  assert (disk w1 !! kc = Some (File c1)) as Hc1 by (rewrite Hr1; apply lookup_insert_eq).
  assert (exists_at (disk w1) (joinpath dir (name src1)) = true) as Hx1.
  { unfold exists_at. rewrite stat_open by (fold kc; by rewrite Hbar1). fold kc.
    by rewrite Hc1. }
  rewrite Hx1, Hclk1, Htk1 in Hr2. fold alt in Hr2.
  assert (disk w1 !! k2 = Some (File c2)) as Hs2'.
  { rewrite Hr1, lookup_insert_ne, lookup_delete_ne by done. exact Hs2. }
  apply (os_rename_inr _ _ _ _ c2) in Hr2 as (Hr2 & _ & Hba & Hna); [|exact Hs2'|by fold ka].
  fold k2 ka in Hr2, Hba, Hna.
  assert (forall a, barred (disk w2) a = barred (disk w1) a) as Hbar2.
  { intros a. rewrite Hr2. by apply (barred_rename _ _ _ _ c2). }
  split; [|split; [|split; [|split]]].
  - apply stat_Some. fold kc. split; [by rewrite Hbar2, Hbar1|].
    rewrite Hr2, lookup_insert_ne, lookup_delete_ne by done. exact Hc1.
  - apply stat_Some. fold ka. split; [by rewrite Hbar2|].
    rewrite Hr2. apply lookup_insert_eq.
  - by rewrite (joinpath_plain dir _ Hp).
  - by rewrite (joinpath_plain dir _ Hpa).
  - intros Hafree p c Hp1 Hp2' [Hbp Hsp]%stat_Some.
    assert (disk w !! ka = None) as Ha.
    { apply exists_at_false; [done|]. fold ka. by rewrite <- Hbar1. }
    assert (resolve p <> ka) as Hpa' by (intros E; rewrite E, Ha in Hsp; discriminate).
    assert (resolve p <> kc) as Hpc by (intros E; rewrite E, Hc in Hsp; discriminate).
    apply stat_Some. split; [by rewrite Hbar2, Hbar1|].
    rewrite Hr2, lookup_insert_ne, lookup_delete_ne by done.
    rewrite Hr1, lookup_insert_ne, lookup_delete_ne by done. exact Hsp.
Qed.

Lemma returns_snd {A} (c : M A) (w : world) (a : A) :
  fst (c w) = inr a -> c w = (inr a, snd (c w)).
Proof. destruct (c w) as [r w1]. cbn. by intros ->. Qed.

Lemma collision_keeps_both_files_witness :
  let src1 := parse (str "/a/X - y.txt") in
  let src2 := parse (str "/b/X - y.txt") in
  let dir := parse (str "/out/X") in
  let w := sample_world two_inputs_disk in
  let w1 := snd (move_file src1 dir w) in
  let w2 := snd (move_file src2 dir w1) in
  stat (disk w2) (joinpath dir (name src1)) = Some (File 1)
  /\ stat (disk w2) (joinpath dir (stem src2 ++ timestamp (clock w (ticks w)) ++ suffix src2))
     = Some (File 2).
Proof.
  intros src1 src2 dir w w1 w2.
  pose proof (collision_keeps_both_files src1 src2 dir 1 2 w w1 w2) as H.
  cbv zeta in H. destruct H as (H1 & H2 & _).
  - repeat split; intros E; vm_compute in E; intuition discriminate.
  - vm_compute. reflexivity.
  - intros E. vm_compute in E. discriminate.
  - vm_compute. reflexivity.
  - vm_compute. reflexivity.
  - vm_compute. reflexivity.
  - unfold w1. apply returns_snd. vm_compute. reflexivity.
  - exists (str "X - y.txt"), dir. vm_compute. reflexivity.
  - unfold w2. apply returns_snd. vm_compute. reflexivity.
  - exists (str "X - y.txt"), dir. vm_compute. reflexivity.
  - split; [exact H1|exact H2].
Defined.

Example two_same_named_files_placed :
  let dir := parse (str "/out/X") in
  let w1 := snd (move_file (parse (str "/a/X - y.txt")) dir (sample_world two_inputs_disk)) in
  let w2 := snd (move_file (parse (str "/b/X - y.txt")) dir w1) in
  stat (disk w2) (parse (str "/out/X/X - y.txt")) = Some (File 1)
  /\ stat (disk w2) (parse (str "/out/X/X - y_07032024_090500.txt")) = Some (File 2)
  /\ stat (disk w2) (parse (str "/a/X - y.txt")) = None
  /\ stat (disk w2) (parse (str "/b/X - y.txt")) = None.
Proof. vm_compute. repeat split. Qed.

(** C3, as stated, fails: a later move can overwrite a file that was there
    before.  When the artist folder already holds a file under the name the
    clock gives, the second placement renames onto it and its content is
    lost. *)
Lemma collision_overwrites_timestamped :
  ~ (forall (src1 src2 dir : Path) (c1 c2 : N) (w w1 w2 : world),
       plain (name src1) -> name src2 = name src1 ->
       resolve src1 <> resolve src2 ->
       stat (disk w) src1 = Some (File c1) -> stat (disk w) src2 = Some (File c2) ->
       exists_at (disk w) (joinpath dir (name src1)) = false ->
       move_file src1 dir w = (inr tt, w1) -> moved w1 ->
       move_file src2 dir w1 = (inr tt, w2) -> moved w2 ->
       forall p c, resolve p <> resolve src1 -> resolve p <> resolve src2 ->
         stat (disk w) p = Some (File c) -> stat (disk w2) p = Some (File c)).
Proof.
  intros H.
  set (src1 := parse (str "/a/X - y.txt")).
  set (src2 := parse (str "/b/X - y.txt")).
  set (dir := parse (str "/out/X")).
  set (w := sample_world crowded_disk).
  assert (stat (disk (snd (move_file src2 dir (snd (move_file src1 dir w)))))
            (parse (str "/out/X/X - y_07032024_090500.txt")) = Some (File 9)) as E.
  { apply (H src1 src2 dir 1%N 2%N w (snd (move_file src1 dir w))).
    - repeat split; intros E; vm_compute in E; intuition discriminate.
    - vm_compute. reflexivity.
    - intros E. vm_compute in E. discriminate.
    - vm_compute. reflexivity.
    - vm_compute. reflexivity.
    - vm_compute. reflexivity.
    - apply returns_snd. vm_compute. reflexivity.
    - exists (str "X - y.txt"), dir. vm_compute. reflexivity.
    - apply returns_snd. vm_compute. reflexivity.
    - exists (str "X - y.txt"), dir. vm_compute. reflexivity.
    - intros E. vm_compute in E. discriminate.
    - intros E. vm_compute in E. discriminate.
    - vm_compute. reflexivity. }
  vm_compute in E. discriminate.
Qed.

(** ** Failures during a run *)








(** The run of the witness: the text file is skipped, the rename of the
    tablature fails on a directory and is logged, the tablature stays where
    it was, and the run completes. *)
Example run_with_failed_move :
  let r := organize_tabs ascii_only (str "/in") (str "/out") (sample_world stuck_disk) in
  fst r = inr tt
  /\ log (snd r)
     = [LogSkip (str "readme.txt");
        LogExists (str "X - y.txt") (str "X - y_07032024_090500.txt");
        LogFailed (str "X - y.txt") (parse (str "/out/X")) IsADirectoryError;
        LogComplete]
  /\ stat (disk (snd r)) (parse (str "/in/X - y.txt")) = Some (File 1).
Proof. vm_compute. repeat split. Qed.


Example folder_failure_run :
  organize_tabs ascii_only (str "/in") (str "/out") (sample_world blocked_disk)
  = (inl FileExistsError, sample_world blocked_disk).
Proof. vm_compute. reflexivity. Qed.

(** With an artist folder that may not be searched, [exists] raises and the
    run ends there. *)
Example exists_failure_run :
  organize_tabs ascii_only (str "/in") (str "/out") (sample_world shut_disk)
  = (inl PermissionError, sample_world shut_disk).
Proof. vm_compute. reflexivity. Qed.

(** * Further properties *)

(** ** The artist pattern *)

(** The match of the artist pattern is the shortest non-empty run without
    line feed that a separator follows. *)
Lemma artist_match_unique (seg rest : text) :
  seg <> [] -> all is_dot seg -> at_separator rest = true ->
  (forall seg' rest', seg ++ rest = seg' ++ rest' -> seg' <> [] ->
     length seg' < length seg -> at_separator rest' = false) ->
  re_match artist_regex (seg ++ rest) = Some ([seg], drop 3 rest).
Proof.
  intros Hne Hdot Hsep Hmin.
  destruct (artist_match_exists seg rest Hne Hdot Hsep) as [m Hm].
  destruct (artist_match _ _ Hm) as (seg2 & w1 & w2 & rest2 & -> & E & Hne2 & _ & Hw1 & Hw2 & Hmin2).
  rewrite Hm. destruct (Nat.lt_trichotomy (length seg2) (length seg)) as [Hlt|[Heq|Hgt]].
  - specialize (Hmin seg2 _ E Hne2 Hlt). cbn [at_separator] in Hmin.
    rewrite Hw1, Hw2 in Hmin. vm_compute in Hmin. discriminate.
  - apply app_inj_1 in E as [-> ->]; [|done]. reflexivity.
  - specialize (Hmin2 seg rest eq_refl Hne Hgt). congruence.
Qed.

(** X1. [get_artist] raises [ValueError] exactly when no non-empty leading
    run of the name is without line feed and directly followed by a
    separator (white space, hyphen, white space).  The match starts at the
    first character: a separator at the very start does not count, and a
    separator further on does not help when a line feed comes before it. *)
Theorem get_artist_raises_iff (U : ucd) (filename : text) :
  get_artist U filename = inl ValueError
  <-> forall seg rest, filename = seg ++ rest -> seg <> [] -> all is_dot seg ->
        at_separator rest = false.
Proof.
  unfold get_artist. split.
  - destruct (re_match artist_regex filename) as [m|] eqn:Hm; [discriminate|].
    intros _ seg rest -> Hne Hdot. destruct (at_separator rest) eqn:Hs; [|done].
    destruct (artist_match_exists seg rest Hne Hdot Hs) as [m Hm']. congruence.
  - intros H. destruct (re_match artist_regex filename) as [m|] eqn:Hm; [|done].
    destruct (artist_match _ _ Hm) as (seg & w1 & w2 & rest & _ & E & Hne & Hdot & Hw1 & Hw2 & _).
    specialize (H seg _ E Hne Hdot). cbn [at_separator] in H.
    rewrite Hw1, Hw2 in H. vm_compute in H. discriminate.
Qed.

Example get_artist_raises :
  get_artist ascii_only (str "readme.txt") = inl ValueError
  /\ get_artist ascii_only (str " - B.txt") = inl ValueError
  /\ get_artist ascii_only (str "A-B.txt") = inl ValueError
  /\ get_artist ascii_only (str "A" ++ [10%N] ++ str "B - C.txt") = inl ValueError.
Proof. by repeat split. Qed.

(** ** Title case of ASCII text *)

Lemma do_title_ascii_lookup (U : ucd) (s b : text) (prev : bool) :
  all is_ascii s ->
  length (do_title U b prev s) = length s
  /\ forall i c, s !! i = Some c ->
       do_title U b prev s !! i
       = Some (if match i with
                  | O => prev
                  | S j => match s !! j with Some p => ascii_letter p | None => false end
                  end
               then ascii_lower_of c else ascii_title_of c).
Proof.
  intros Hs. revert b prev. induction Hs as [|c0 s Hc Hs IH]; intros b prev; [done|].
  cbn [do_title]. rewrite (cased_ascii U c0 Hc).
  destruct (IH (c0 :: b) (ascii_upper c0 || ascii_lower c0)) as [Hlen Hat].
  split.
  - destruct prev; [rewrite (to_lower_ascii U b c0 s Hc)|rewrite (to_title_ascii U c0 Hc)];
      cbn [app length]; by rewrite Hlen.
  - intros [|i] c Hi.
    + injection Hi as <-.
      destruct prev; [rewrite (to_lower_ascii U b c0 s Hc)|rewrite (to_title_ascii U c0 Hc)];
        reflexivity.
    + cbn in Hi.
      destruct prev; [rewrite (to_lower_ascii U b c0 s Hc)|rewrite (to_title_ascii U c0 Hc)];
        cbn [app];
        (etransitivity; [exact (Hat i c Hi)|]); destruct i as [|j]; reflexivity.
Qed.

(** X2. The title case of ASCII text, character by character: the text keeps
    its length; a character that follows an ASCII letter is put in lower
    case, any other character (the first one, and one after a digit, a
    space, an apostrophe or any other sign) in upper case. *)
Theorem title_ascii_characters (U : ucd) (s : text) :
  all is_ascii s ->
  length (title U s) = length s
  /\ forall i c, s !! i = Some c ->
       title U s !! i
       = Some (if after_letter s i then ascii_lower_of c else ascii_title_of c).
Proof. intros Hs. by apply do_title_ascii_lookup. Qed.

Lemma title_ascii_characters_witness :
  length (title ascii_only (str "don't stop")) = 10
  /\ title ascii_only (str "don't stop") !! 4 = Some 84%N.
Proof.
  assert (all is_ascii (str "don't stop")) as Hs by (by repeat constructor).
  destruct (title_ascii_characters ascii_only (str "don't stop") Hs) as [Hl Hat].
  split; [exact Hl|]. exact (Hat 4 116%N eq_refl).
Defined.

(** ** Letter case of the file name *)

Lemma not_ascii_not_upper (c : char) : is_ascii c = false -> ascii_upper c = false.
Proof.
  unfold is_ascii, ascii_upper, in_range. intros H%N.ltb_ge.
  apply andb_false_iff. right. apply N.leb_gt. lia.
Qed.

Lemma lower_keeps_class (c : char) :
  is_space (ascii_lower_of c) = is_space c
  /\ is_dot (ascii_lower_of c) = is_dot c
  /\ lit 45%N (ascii_lower_of c) = lit 45%N c
  /\ lit_i 116%N (ascii_lower_of c) = lit_i 116%N c
  /\ lit_i 104%N (ascii_lower_of c) = lit_i 104%N c
  /\ lit_i 101%N (ascii_lower_of c) = lit_i 101%N c.
Proof.
  destruct (is_ascii c) eqn:H.
  - pose proof (ascii_forall (fun c =>
      eqb (is_space (ascii_lower_of c)) (is_space c)
      && eqb (is_dot (ascii_lower_of c)) (is_dot c)
      && eqb (lit 45%N (ascii_lower_of c)) (lit 45%N c)
      && eqb (lit_i 116%N (ascii_lower_of c)) (lit_i 116%N c)
      && eqb (lit_i 104%N (ascii_lower_of c)) (lit_i 104%N c)
      && eqb (lit_i 101%N (ascii_lower_of c)) (lit_i 101%N c)) eq_refl c H) as F.
    cbv beta in F. repeat (apply andb_prop in F as [F ?]).
    repeat split; by apply eqb_prop.
  - unfold ascii_lower_of. by rewrite (not_ascii_not_upper c H).
Qed.

Lemma lower_title_facts (c : char) :
  is_ascii c = true ->
  ascii_title_of (ascii_lower_of c) = ascii_title_of c.
Proof.
  intros H.
  pose proof (ascii_forall (fun c =>
    (ascii_title_of (ascii_lower_of c) =? ascii_title_of c)%N) eq_refl c H) as F.
  by apply N.eqb_eq.
Qed.

Lemma all_map_lower (q : char -> bool) (s : text) :
  (forall c, q (ascii_lower_of c) = q c) ->
  all q (map ascii_lower_of s) <-> all q s.
Proof.
  intros Hq. unfold all. rewrite Forall_map. apply Forall_iff. intros c. by rewrite Hq.
Qed.

Lemma at_separator_lower (s : text) :
  at_separator (map ascii_lower_of s) = at_separator s.
Proof.
  destruct s as [|w1 [|h [|w2 s]]]; try reflexivity. cbn [map at_separator].
  destruct (lower_keeps_class w1) as (-> & _).
  destruct (lower_keeps_class w2) as (-> & _).
  by destruct (lower_keeps_class h) as (_ & _ & -> & _).
Qed.

Lemma do_title_lower (U : ucd) (s b1 b2 : text) (prev : bool) :
  all is_ascii s ->
  do_title U b1 prev (map ascii_lower_of s) = do_title U b2 prev s.
Proof.
  intros Hs. revert b1 b2 prev. induction Hs as [|c s Hc Hs IH]; intros b1 b2 prev; [done|].
  destruct (ascii_case_facts c Hc) as (_ & Hl & _ & Hll & _ & Hcl).
  cbn [map do_title]. rewrite (cased_ascii U c Hc), (cased_ascii U _ Hl), Hcl.
  rewrite (IH _ (c :: b2)). f_equal. destruct prev.
  - by rewrite (to_lower_ascii U _ _ _ Hl), (to_lower_ascii U _ _ _ Hc), Hll.
  - by rewrite (to_title_ascii U _ Hl), (to_title_ascii U _ Hc), (lower_title_facts c Hc).
Qed.

Lemma lstrip_keep_last_lower (s : text) :
  lstrip_keep_last (map ascii_lower_of s) = map ascii_lower_of (lstrip_keep_last s).
Proof.
  induction s as [|x [|y s] IH]; [done..|].
  change (lstrip_keep_last (map ascii_lower_of (x :: y :: s)))
    with (if is_space (ascii_lower_of x) then lstrip_keep_last (map ascii_lower_of (y :: s))
          else map ascii_lower_of (x :: y :: s)).
  change (lstrip_keep_last (x :: y :: s))
    with (if is_space x then lstrip_keep_last (y :: s) else x :: y :: s).
  destruct (lower_keeps_class x) as (-> & _). by destruct (is_space x).
Qed.

Lemma the_remainder_lower (seg : text) :
  the_remainder (map ascii_lower_of seg)
  = option_map (map ascii_lower_of) (the_remainder seg).
Proof.
  destruct seg as [|t [|h [|e [|w [|x rest]]]]]; try reflexivity.
  change (the_remainder (map ascii_lower_of (t :: h :: e :: w :: x :: rest)))
    with (if lit_i 116%N (ascii_lower_of t) && lit_i 104%N (ascii_lower_of h)
             && lit_i 101%N (ascii_lower_of e) && is_space (ascii_lower_of w)
          then Some (lstrip_keep_last (map ascii_lower_of (x :: rest))) else None).
  change (the_remainder (t :: h :: e :: w :: x :: rest))
    with (if lit_i 116%N t && lit_i 104%N h && lit_i 101%N e && is_space w
          then Some (lstrip_keep_last (x :: rest)) else None).
  destruct (lower_keeps_class t) as (_ & _ & _ & -> & _).
  destruct (lower_keeps_class h) as (_ & _ & _ & _ & -> & _).
  destruct (lower_keeps_class e) as (_ & _ & _ & _ & _ & ->).
  destruct (lower_keeps_class w) as (-> & _).
  rewrite lstrip_keep_last_lower. by destruct (_ && _).
Qed.

Lemma all_lstrip_keep_last (q : char -> bool) (s : text) :
  all q s -> all q (lstrip_keep_last s).
Proof.
  intros H. destruct (lstrip_keep_last_split s) as (pfx & E & _).
  rewrite E in H. unfold all in *. by apply Forall_app in H as [_ H].
Qed.

Lemma reformat_artist_lower (U : ucd) (seg : text) :
  all is_ascii seg -> all is_dot seg ->
  reformat_artist U (map ascii_lower_of seg) = reformat_artist U seg.
Proof.
  intros Ha Hd.
  rewrite !reformat_artist_remainder;
    [|done|by apply all_map_lower; [intros c; apply lower_keeps_class|]].
  rewrite the_remainder_lower. destruct (the_remainder seg) as [r|] eqn:Hr; cbn [option_map].
  - unfold title. rewrite (do_title_lower U r [] []); [done|].
    destruct seg as [|t [|h [|e [|w [|x rest]]]]]; try discriminate.
    cbn [the_remainder] in Hr. destruct (_ && _); [|discriminate]. injection Hr as <-.
    apply (all_lstrip_keep_last is_ascii (x :: rest)).
    unfold all in *. by do 4 apply Forall_inv_tail in Ha.
  - unfold title. by apply do_title_lower.
Qed.

Lemma get_artist_lower (U : ucd) (nm : text) :
  all is_ascii nm -> get_artist U (map ascii_lower_of nm) = get_artist U nm.
Proof.
  intros Ha. unfold get_artist.
  destruct (re_match artist_regex nm) as [m|] eqn:Hm.
  - destruct (artist_match _ _ Hm) as (seg & w1 & w2 & rest & -> & -> & Hne & Hdot & Hw1 & Hw2 & Hmin).
    rewrite map_app. rewrite artist_match_unique.
    + cbn [group1 fst hd]. f_equal. apply reformat_artist_lower; [|done].
      unfold all in *. by apply Forall_app in Ha as [Ha _].
    + by destruct seg.
    + by apply all_map_lower; [intros c; apply lower_keeps_class|].
    + rewrite at_separator_lower. cbn [at_separator]. rewrite Hw1, Hw2. reflexivity.
    + intros seg' rest' E Hne' Hlt. rewrite length_map in Hlt. rewrite <- map_app in E.
      assert (seg' = map ascii_lower_of (take (length seg') (seg ++ w1 :: 45%N :: w2 :: rest))
              /\ rest' = map ascii_lower_of (drop (length seg') (seg ++ w1 :: 45%N :: w2 :: rest)))
        as [E1 E2].
      { rewrite <- firstn_map, <- skipn_map, E. by rewrite take_app_length, drop_app_length. }
      rewrite E2, at_separator_lower.
      apply (Hmin (take (length seg') (seg ++ w1 :: 45%N :: w2 :: rest))).
      * by rewrite take_drop.
      * intros E0. rewrite E0 in E1. by subst seg'.
      * rewrite length_take. lia.
  - destruct (re_match artist_regex (map ascii_lower_of nm)) as [m|] eqn:Hm'; [|done].
    exfalso.
    destruct (artist_match _ _ Hm') as (seg & w1 & w2 & rest & _ & E & Hne & Hdot & Hw1 & Hw2 & _).
    assert (seg = map ascii_lower_of (take (length seg) nm)
            /\ w1 :: 45%N :: w2 :: rest = map ascii_lower_of (drop (length seg) nm)) as [E1 E2].
    { rewrite <- firstn_map, <- skipn_map, E. by rewrite take_app_length, drop_app_length. }
    destruct (artist_match_exists (take (length seg) nm) (drop (length seg) nm)) as [m0 Hm0].
    + intros E0. rewrite E0 in E1. by subst seg.
    + apply (all_map_lower is_dot (take (length seg) nm)); [intros c; apply lower_keeps_class|].
      by rewrite <- E1.
    + rewrite <- at_separator_lower, <- E2. cbn [at_separator]. rewrite Hw1, Hw2. reflexivity.
    + rewrite take_drop in Hm0. congruence.
Qed.

(** X3. The artist does not depend on the case of ASCII letters: two ASCII
    file names that are equal up to letter case give the same artist, or
    both give none. *)
Theorem get_artist_ignores_case (U : ucd) (n1 n2 : text) :
  all is_ascii n1 -> all is_ascii n2 ->
  map ascii_lower_of n1 = map ascii_lower_of n2 ->
  get_artist U n1 = get_artist U n2.
Proof.
  intros H1 H2 E. by rewrite <- (get_artist_lower U n1), <- (get_artist_lower U n2), E.
Qed.

Lemma get_artist_ignores_case_witness :
  get_artist ascii_only (str "THE WHO - Baba.TXT")
  = get_artist ascii_only (str "the who - baba.txt").
Proof.
  apply (get_artist_ignores_case ascii_only
           (str "THE WHO - Baba.TXT") (str "the who - baba.txt")).
  - by repeat constructor.
  - by repeat constructor.
  - reflexivity.
Defined.

(** ** The name after a collision *)





Lemma word_no_dot (U : ucd) (e : text) : all (is_word U) e -> ~ In 46%N e.
Proof.
  intros H Hin. unfold all in H. rewrite Forall_forall in H.
  apply list_elem_of_In, H in Hin. discriminate.
Qed.

Lemma stamp_is_dot (c : char) : stamp_char c = true -> is_dot c = true.
Proof.
  unfold is_dot. destruct (N.eqb_spec c 10) as [->|]; [discriminate|done].
Qed.

Lemma last_dot_unique (x e x' e' : text) :
  ~ In 46%N e -> ~ In 46%N e' -> x ++ 46%N :: e = x' ++ 46%N :: e' -> x = x' /\ e = e'.
Proof.
  intros He He' E. pose proof (f_equal rfind_dot E) as Hr.
  rewrite !rfind_dot_last in Hr by done. injection Hr as Hl.
  apply app_inj_1 in E as [-> [= ->]]; done.
Qed.

Lemma at_separator_prefix (q x y : text) :
  3 <= length q -> at_separator (q ++ x) = at_separator (q ++ y).
Proof. destruct q as [|a [|b [|c q]]]; cbn [length]; [lia..|reflexivity]. Qed.

(** The match of the artist pattern depends on the name up to the separator
    only. *)
Lemma artist_match_prefix (seg rest rest' : text) (w1 w2 : char) :
  (forall seg' r, seg ++ w1 :: 45%N :: w2 :: rest = seg' ++ r -> seg' <> [] ->
     length seg' < length seg -> at_separator r = false) ->
  seg <> [] -> all is_dot seg -> is_space w1 = true -> is_space w2 = true ->
  re_match artist_regex (seg ++ w1 :: 45%N :: w2 :: rest') = Some ([seg], rest').
Proof.
  intros Hmin Hne Hdot Hw1 Hw2.
  apply (artist_match_unique seg (w1 :: 45%N :: w2 :: rest')); [done..| |].
  - cbn [at_separator]. by rewrite Hw1, Hw2.
  - intros seg' r E Hne' Hlt.
    assert (seg' = take (length seg') seg) as E1.
    { rewrite <- (take_app_le seg (w1 :: 45%N :: w2 :: rest')) by lia.
      by rewrite E, take_app_length. }
    assert (r = drop (length seg') seg ++ w1 :: 45%N :: w2 :: rest') as ->.
    { rewrite <- drop_app_le by lia. by rewrite E, drop_app_length. }
    specialize (Hmin seg' (drop (length seg') seg ++ w1 :: 45%N :: w2 :: rest)).
    rewrite <- Hmin; [| |done..].
    2:{ rewrite app_assoc. f_equal. rewrite <- (take_drop (length seg') seg) at 1.
        f_equal. by rewrite <- E1. }
    change (w1 :: 45%N :: w2 :: rest') with ([w1; 45%N; w2] ++ rest').
    change (w1 :: 45%N :: w2 :: rest) with ([w1; 45%N; w2] ++ rest).
    rewrite !(app_assoc (drop _ _)). apply at_separator_prefix.
    rewrite length_app. cbn [length]. lia.
Qed.

(** X5. The name made for a collision is a tablature name of the same
    artist: it passes the structural check, and [get_artist] returns for it
    what it returns for the original name. *)
Theorem collision_name_same_artist (U : ucd) (p : Path) (t : datetime) :
  matches U (name p) ->
  matches U (stem p ++ timestamp t ++ suffix p)
  /\ get_artist U (stem p ++ timestamp t ++ suffix p) = get_artist U (name p).
Proof.
  intros Hm. pose proof Hm as Hshape. apply fullmatch_shape in Hshape
    as (a & v1 & v2 & b & ext & E & Ha & Halla & Hv1 & Hv2 & Hb & Hallb & Hext & Hallext).
  destruct (suffix_extension U p Hm) as (ext' & Hsuf & Hext' & Hallext').
  pose proof (stem_suffix p) as Hss. rewrite Hsuf in Hss. rewrite Hsuf.
  assert (stem p = a ++ [v1; 45%N; v2] ++ b /\ ext' = ext) as [Hstem ->].
  { apply last_dot_unique; [by eapply word_no_dot..|].
    rewrite Hss, E. by rewrite <- !app_assoc. }
  split.
  - apply fullmatch_shape. exists a, v1, v2, (b ++ timestamp t), ext.
    repeat split; try done.
    + rewrite Hstem. by rewrite <- !app_assoc.
    + by destruct b.
    + unfold all in *. apply Forall_app_2; [done|].
      destruct (timestamp_chars t) as [Hc _]. unfold all in Hc.
      eapply Forall_impl; [exact Hc|]. intros c Hcc. by apply stamp_is_dot.
  - destruct (matches_artist_match U _ Hm) as [m Hmatch].
    destruct (artist_match _ _ Hmatch)
      as (seg & w1 & w2 & rest & -> & En & Hne & Hdot & Hw1 & Hw2 & Hmin).
    assert (length seg <= length a) as Hle.
    { destruct (Nat.le_gt_cases (length seg) (length a)) as [|Hlt]; [done|].
      specialize (Hmin a ([v1; 45%N; v2] ++ b ++ [46%N] ++ ext) E Ha Hlt).
      cbn [app at_separator] in Hmin. rewrite Hv1, Hv2 in Hmin. discriminate. }
    assert (stem p = seg ++ w1 :: 45%N :: w2 :: drop (length seg + 3) (stem p)) as Hpre.
    { rewrite <- (take_drop (length seg + 3) (stem p)) at 1.
      change (seg ++ w1 :: 45%N :: w2 :: drop (length seg + 3) (stem p))
        with (seg ++ [w1; 45%N; w2] ++ drop (length seg + 3) (stem p)).
      rewrite app_assoc. f_equal.
      rewrite <- (take_app_le (stem p) (46%N :: ext)), Hss, En.
      - change (seg ++ w1 :: 45%N :: w2 :: rest) with (seg ++ [w1; 45%N; w2] ++ rest).
        rewrite app_assoc. rewrite take_app_length'; [done|].
        by rewrite length_app.
      - rewrite Hstem, !length_app. cbn [length]. lia. }
    unfold get_artist. rewrite Hmatch. rewrite Hpre at 1.
    rewrite <- app_assoc. cbn [app].
    rewrite (artist_match_prefix seg rest _ w1 w2); [done| |done..].
    intros seg' r E'. apply Hmin. by rewrite En.
Qed.

Lemma collision_name_same_artist_witness :
  matches ascii_only (stem (parse (str "/in/the who - baba.txt")) ++ timestamp sample_time
                      ++ suffix (parse (str "/in/the who - baba.txt")))
  /\ get_artist ascii_only (stem (parse (str "/in/the who - baba.txt")) ++ timestamp sample_time
                            ++ suffix (parse (str "/in/the who - baba.txt")))
     = get_artist ascii_only (name (parse (str "/in/the who - baba.txt"))).
Proof.
  apply (collision_name_same_artist ascii_only (parse (str "/in/the who - baba.txt")) sample_time).
  vm_compute. by eexists.
Defined.

(** ** The check of the directories *)

Lemma elem_of_ancestors (rt : N) (rp : list text) (p : Path) :
  p ∈ ancestors rt rp <-> root p = rt /\ exists pre, pre <> [] /\ rp = pre ++ rparts p.
Proof.
  induction rp as [|c up IH]; cbn [ancestors].
  - split; [by intros ?%elem_of_nil|]. intros (_ & pre & Hne & E). by destruct pre.
  - rewrite elem_of_cons, IH. split.
    + intros [->|(Hr & pre & Hne & ->)]; [split; [done|]; by exists [c]|].
      split; [done|]. by exists (c :: pre).
    + intros (Hr & pre & Hne & E). destruct pre as [|x pre]; [done|].
      injection E as -> ->. destruct pre as [|y pre].
      * left. destruct p. cbn in *. by subst.
      * right. split; [done|]. by exists (y :: pre).
Qed.

(** X6. The check of [organize_tabs] compares the two paths as they are
    written.  When the components of the output are those of the input
    without one or more of the last ones, and the roots agree, the run stops
    at once: one error record, the disk as it was, exit status 1.  In every
    other case the files are listed and stored. *)
Theorem organize_tabs_check (U : ucd) (input output : text) (w : world) :
  let above :=
    root (parse output) = root (parse input)
    /\ exists pre, pre <> [] /\ rparts (parse input) = pre ++ rparts (parse output) in
  (above ->
   organize_tabs U input output w
   = (inl (SystemExit 1), mkWorld (disk w) (log w ++ [LogAbort]) (clock w) (ticks w))
   /\ exit_status (fst (organize_tabs U input output w)) = 1%N)
  /\ (~ above ->
      organize_tabs U input output w = store_all U (parse input) (parse output) w).
Proof.
  intros above. unfold organize_tabs. cbv zeta. split.
  - intros H. rewrite bool_decide_eq_true_2; [by split|]. by apply elem_of_ancestors.
  - intros H. rewrite bool_decide_eq_false_2; [done|]. intros Hin. apply H.
    by apply elem_of_ancestors in Hin.
Qed.

Lemma organize_tabs_check_witness :
  organize_tabs ascii_only (str "music/in") (str ".") (sample_world sample_disk)
  = (inl (SystemExit 1), mkWorld sample_disk [LogAbort] (fun _ => sample_time) 0)
  /\ exit_status (fst (organize_tabs ascii_only (str "music/in") (str ".")
                         (sample_world sample_disk))) = 1%N.
Proof.
  apply (proj1 (organize_tabs_check ascii_only (str "music/in") (str ".")
                  (sample_world sample_disk))).
  split; [reflexivity|]. exists [str "in"; str "music"]. split; [discriminate|reflexivity].
Defined.

(** ** A run without tablatures *)

Lemma for_each_skips (U : ucd) (files : list Path) (input_dir output_dir : Path) (w : world) :
  (forall f, In f files -> ~ matches U (name f)) ->
  for_each files (fun file => store_file U file input_dir output_dir) w
  = (inr tt, mkWorld (disk w) (log w ++ map (fun f => LogSkip (name f)) files)
               (clock w) (ticks w)).
Proof.
  revert w. induction files as [|f files IH]; intros w H.
  - cbn. rewrite app_nil_r. by destruct w.
  - cbn [for_each map]. unfold bind. unfold store_file at 1.
    destruct (re_fullmatch (tablature_regex U) (name f)) as [m|] eqn:Hm.
    + exfalso. apply (H f); [by left|]. unfold matches. rewrite Hm. by eexists.
    + unfold emit at 1. rewrite IH by (intros g Hg; apply H; by right).
      cbn [disk log clock ticks]. by rewrite <- app_assoc.
Qed.

(** X7. A run without tablatures changes nothing on the disk.  When the
    run passes the check, the listing of the input directory and [is_file]
    on its entries return, and none of the regular files has a tablature
    name, the run returns: no folder is made, not even the output
    directory, nothing is moved; the regular files (the entries that
    [is_file] accepts) get their skip warnings in the order of the listing,
    and the completion record follows.  Directories of the input are not
    looked at, whatever their names. *)
Theorem run_without_tablatures (U : ucd) (input output : text) (w : world)
    (entries files : list Path) :
  parse output ∉ parents (parse input) ->
  iterdir (disk w) (parse input) = inr entries ->
  only_files (disk w) entries = inr files ->
  (forall f, In f files -> ~ matches U (name f)) ->
  files = List.filter (is_file_at (disk w)) entries
  /\ organize_tabs U input output w
     = (inr tt,
        mkWorld (disk w) (log w ++ map (fun f => LogSkip (name f)) files ++ [LogComplete])
          (clock w) (ticks w)).
Proof.
  intros Hcheck Hiter Hfiles Hnone. split; [by apply only_files_inr|].
  unfold organize_tabs. rewrite bool_decide_eq_false_2 by done.
  unfold store_all, bind, call. rewrite Hiter, Hfiles.
  rewrite for_each_skips by done.
  unfold emit. cbn [disk log clock ticks]. by rewrite <- app_assoc.
Qed.

Lemma run_without_tablatures_witness :
  let w := sample_world notes_disk in
  let entries := [parse (str "/in/readme.txt"); parse (str "/in/A - B.txt")] in
  let files := [parse (str "/in/readme.txt")] in
  files = List.filter (is_file_at (disk w)) entries
  /\ organize_tabs ascii_only (str "/in") (str "/out") w
     = (inr tt,
        mkWorld (disk w) (log w ++ map (fun f => LogSkip (name f)) files ++ [LogComplete])
          (clock w) (ticks w)).
Proof.
  intros w entries files.
  apply (run_without_tablatures ascii_only (str "/in") (str "/out") w entries files).
  - intros H. apply list_elem_of_In in H. vm_compute in H. intuition discriminate.
  - vm_compute. reflexivity.
  - vm_compute. reflexivity.
  - intros f [<-|[]] [m Hm]. vm_compute in Hm. discriminate.
Defined.

Example notes_run_log :
  organize_tabs ascii_only (str "/in") (str "/out") (sample_world notes_disk)
  = (inr tt, mkWorld notes_disk [LogSkip (str "readme.txt"); LogComplete]
               (fun _ => sample_time) 0).
Proof. vm_compute. reflexivity. Qed.

(** ** Making the artist folder *)

Lemma os_mkdir_inr (d d' : fs) (p : Path) :
  os_mkdir d p = inr d' ->
  barred d (resolve p) = false /\ d !! parent (resolve p) = Some (Dir true)
  /\ d !! resolve p = None /\ d' = <[resolve p := Dir true]> d.
Proof.
  unfold os_mkdir. destruct (barred d (resolve p)); [done|].
  destruct (d !! parent (resolve p)) as [[c|[|]|]|]; try done;
    destruct (d !! resolve p); try done. by intros [= <-].
Qed.

Lemma os_mkdir_keeps (d d' : fs) (p : Path) :
  os_mkdir d p = inr d' -> d ⊆ d' /\ forall a, shut_at d' a = shut_at d a.
Proof.
  intros (_ & _ & Hnone & ->)%os_mkdir_inr. split; [by apply insert_subseteq|].
  intros a. apply shut_at_insert; [by rewrite Hnone|done].
Qed.

Lemma os_mkdir_again (d d' : fs) (p : Path) :
  os_mkdir d p = inr d' ->
  os_mkdir d' p = inl FileExistsError /\ path_is_dir d' p = inr true.
Proof.
  intros H. pose proof (os_mkdir_keeps _ _ _ H) as [_ Hshut].
  apply os_mkdir_inr in H as (Hb & Hpar & Hnone & ->).
  assert (parent (resolve p) <> resolve p) as Hne by (intros E; rewrite E in Hpar; congruence).
  assert (barred (<[resolve p := Dir true]> d) (resolve p) = false) as Hb'
    by (by rewrite (barred_ext d)).
  split.
  - unfold os_mkdir. by rewrite Hb', lookup_insert_ne, Hpar, lookup_insert_eq.
  - unfold path_is_dir. by rewrite (probe_open _ _ _ Hb'), lookup_insert_eq.
Qed.

Lemma mkdir_except_inr (exist_ok : bool) (d d' : fs) (p : Path) (e : exn) :
  mkdir_except exist_ok d p e = inr d' -> d' = d /\ path_is_dir d p = inr true.
Proof.
  unfold mkdir_except. destruct exist_ok; [|done].
  destruct (path_is_dir d p) as [e'|[|]]; try done. by intros [= <-].
Qed.

Lemma mkdir_here_inr (exist_ok : bool) (d d' : fs) (p : Path) :
  mkdir_here exist_ok d p = inr d' ->
  os_mkdir d p = inr d'
  \/ (exists e, os_mkdir d p = inl e /\ e <> FileNotFoundError
                /\ path_is_dir d p = inr true /\ d' = d).
Proof.
  unfold mkdir_here. destruct (os_mkdir d p) as [e|d1]; [|by left].
  destruct e; try done; intros [-> Hdir]%mkdir_except_inr; right; eexists; by repeat split.
Qed.

Lemma mkdir_parents_inr (exist_ok : bool) (d d' : fs) (rt : N) (rp : list text) :
  mkdir_parents exist_ok d rt rp = (inr tt, d') ->
  os_mkdir d (mkPath rt rp) = inr d'
  \/ (exists e, os_mkdir d (mkPath rt rp) = inl e /\ e <> FileNotFoundError
                /\ path_is_dir d (mkPath rt rp) = inr true /\ d' = d)
  \/ (exists c up d1, rp = c :: up /\ os_mkdir d (mkPath rt rp) = inl FileNotFoundError
                      /\ mkdir_parents true d rt up = (inr tt, d1)
                      /\ mkdir_here exist_ok d1 (mkPath rt rp) = inr d').
Proof.
  destruct rp as [|c up]; cbn [mkdir_parents];
    (destruct (os_mkdir d _) as [e|d1] eqn:Hos; [|intros [= <-]; by left]).
  - destruct e; try done;
      (destruct (mkdir_except exist_ok d _ _) as [e'|d1] eqn:Hx; [done|]);
      apply mkdir_except_inr in Hx as [-> Hdir];
      intros [= <-]; right; left; eexists; by repeat split.
  - destruct e;
      try (destruct (mkdir_except exist_ok d _ _) as [e'|d1] eqn:Hx; [done|];
           apply mkdir_except_inr in Hx as [-> Hdir];
           intros [= <-]; right; left; eexists; by repeat split).
    destruct (mkdir_parents true d rt up) as [[e|[]] d1] eqn:Hup; [done|].
    destruct (mkdir_here exist_ok d1 _) as [e|d2] eqn:Hh; [done|].
    intros [= <-]. right. right. by exists c, up, d1.
Qed.

Lemma mkdir_parents_settled (d : fs) (rt : N) (rp : list text) (e : exn) :
  os_mkdir d (mkPath rt rp) = inl e -> e <> FileNotFoundError ->
  path_is_dir d (mkPath rt rp) = inr true ->
  mkdir_parents true d rt rp = (inr tt, d).
Proof.
  intros Hos Hne Hdir. destruct rp as [|c up]; cbn [mkdir_parents];
    rewrite Hos; unfold mkdir_except; rewrite Hdir; by destruct e.
Qed.

(** Whatever its outcome, [mkdir] with [parents] only adds directories that
    may be searched: what was on the disk is there as it was. *)
Lemma mkdir_parents_keeps (exist_ok : bool) (d d' : fs) (rt : N) (rp : list text)
    (r : exn + unit) :
  mkdir_parents exist_ok d rt rp = (r, d') ->
  d ⊆ d' /\ forall a, shut_at d' a = shut_at d a.
Proof.
  revert exist_ok d d' r. induction rp as [|c up IH]; intros exist_ok d d' r;
    cbn [mkdir_parents]; (destruct (os_mkdir d _) as [e|d1] eqn:Hos;
      [|intros [= <- <-]; by apply os_mkdir_keeps in Hos]).
  - destruct e; try by intros [= <- <-].
    all: destruct (mkdir_except exist_ok d _ _) as [e'|d1] eqn:Hx; intros [= <- <-]; try done.
    all: by apply mkdir_except_inr in Hx as [-> _].
  - destruct e.
    all: try (destruct (mkdir_except exist_ok d _ _) as [e'|d1] eqn:Hx; intros [= <- <-];
              [done|by apply mkdir_except_inr in Hx as [-> _]]).
    destruct (mkdir_parents true d rt up) as [[e|[]] d1] eqn:Hup.
    + intros [= <- <-]. by eapply IH.
    + destruct (IH _ _ _ _ Hup) as [Hsub Hshut].
      destruct (mkdir_here exist_ok d1 _) as [e|d2] eqn:Hh; intros [= <- <-]; [done|].
      apply mkdir_here_inr in Hh as [Hh|(e & _ & _ & _ & ->)]; [|done].
      apply os_mkdir_keeps in Hh as [Hsub2 Hshut2]. split; [by etransitivity|].
      intros a. by rewrite Hshut2.
Qed.

Lemma mkdir_parents_dir (exist_ok : bool) (d d' : fs) (rt : N) (rp : list text) :
  mkdir_parents exist_ok d rt rp = (inr tt, d') -> path_is_dir d' (mkPath rt rp) = inr true.
Proof.
  intros H.
  apply mkdir_parents_inr in H as [H|[(e & _ & _ & Hdir & ->)|(c & up & d1 & _ & _ & _ & H)]].
  - by apply os_mkdir_again in H as [_ H].
  - done.
  - apply mkdir_here_inr in H as [H|(e & _ & _ & Hdir & ->)]; [|done].
    by apply os_mkdir_again in H as [_ H].
Qed.

Lemma mkdir_parents_again (d d' : fs) (rt : N) (rp : list text) :
  mkdir_parents true d rt rp = (inr tt, d') -> mkdir_parents true d' rt rp = (inr tt, d').
Proof.
  intros H.
  apply mkdir_parents_inr in H as [H|[(e & Hos & Hne & Hdir & ->)|(c & up & d1 & E & _ & _ & H)]].
  - apply os_mkdir_again in H as [Hos Hdir]. by eapply mkdir_parents_settled.
  - by eapply mkdir_parents_settled.
  - apply mkdir_here_inr in H as [H|(e & Hos & Hne & Hdir & ->)].
    + apply os_mkdir_again in H as [Hos Hdir]. by eapply mkdir_parents_settled.
    + by eapply mkdir_parents_settled.
Qed.

Lemma stat_keeps (d d' : fs) (q : Path) (n : node) :
  d ⊆ d' -> (forall a, shut_at d' a = shut_at d a) ->
  stat d q = Some n -> stat d' q = Some n.
Proof.
  intros Hsub Hshut [Hb Hn]%stat_Some. apply stat_Some.
  split; [by rewrite (barred_ext d)|]. by eapply lookup_weaken.
Qed.

Lemma create_folder_eq (artist_name : text) (output_dir : Path) (w : world) :
  create_folder artist_name output_dir w
  = let artist_dir := joinpath output_dir artist_name in
    let r := mkdir_parents true (disk w) (root artist_dir) (rparts artist_dir) in
    match fst r with
    | inr _ => (inr artist_dir, mkWorld (snd r) (log w) (clock w) (ticks w))
    | inl e => (inl e, mkWorld (snd r) (log w) (clock w) (ticks w))
    end.
Proof.
  unfold create_folder, bind, syscalls, ret. cbv zeta.
  by destruct (mkdir_parents _ _ _ _) as [[e|[]] d].
Qed.

(** X8. When [create_folder] returns, it returns the output directory
    joined with the artist name, that path is a directory, every file and
    directory that was on the disk is still there as it was, and nothing was
    logged. *)
Theorem create_folder_makes_directory (artist_name : text) (output_dir p : Path)
    (w w' : world) :
  create_folder artist_name output_dir w = (inr p, w') ->
  p = joinpath output_dir artist_name
  /\ is_dir_at (disk w') p = true
  /\ (forall q n, stat (disk w) q = Some n -> stat (disk w') q = Some n)
  /\ log w' = log w.
Proof.
  rewrite create_folder_eq. cbv zeta.
  destruct (mkdir_parents _ _ _ _) as [[e|[]] d] eqn:H; [done|]. intros [= <- <-].
  pose proof (mkdir_parents_dir _ _ _ _ _ H) as Hdir.
  apply mkdir_parents_keeps in H as [Hsub Hshut]. cbn [disk log snd].
  split; [done|]. split; [|split; [|done]].
  - apply path_is_dir_inr. by destruct (joinpath output_dir artist_name).
  - intros q n. by apply stat_keeps.
Qed.

Lemma create_folder_makes_directory_witness :
  let w := sample_world sample_disk in
  let r := create_folder (str "Metallica") (parse (str "/out")) w in
  fst r = inr (joinpath (parse (str "/out")) (str "Metallica"))
  /\ is_dir_at (disk (snd r)) (joinpath (parse (str "/out")) (str "Metallica")) = true.
Proof.
  intros w r.
  destruct (create_folder_makes_directory (str "Metallica") (parse (str "/out"))
              (joinpath (parse (str "/out")) (str "Metallica")) w (snd r)) as (_ & H & _).
  - apply returns_snd. vm_compute. reflexivity.
  - split; [vm_compute; reflexivity|exact H].
Defined.

(** X9. Making the folder of an artist a second time changes nothing and
    raises nothing: after a call that returned, the same call returns the
    same path and leaves the disk and the log as they are. *)
Theorem create_folder_idempotent (artist_name : text) (output_dir p : Path) (w w' : world) :
  create_folder artist_name output_dir w = (inr p, w') ->
  create_folder artist_name output_dir w' = (inr p, w').
Proof.
  rewrite !create_folder_eq. cbv zeta.
  destruct (mkdir_parents _ (disk w) _ _) as [[e|[]] d] eqn:H; [done|]. intros [= <- <-].
  cbn [disk fst snd]. by rewrite (mkdir_parents_again _ _ _ _ H).
Qed.

Lemma create_folder_idempotent_witness :
  let w := sample_world sample_disk in
  let r := create_folder (str "Metallica") (parse (str "/out")) w in
  create_folder (str "Metallica") (parse (str "/out")) (snd r)
  = (inr (joinpath (parse (str "/out")) (str "Metallica")), snd r).
Proof.
  intros w r.
  apply (create_folder_idempotent (str "Metallica") (parse (str "/out")) _ w).
  apply returns_snd. vm_compute. reflexivity.
Defined.

Lemma matches_fullmatch (U : ucd) (nm : text) :
  matches U nm -> exists m, re_fullmatch (tablature_regex U) nm = Some m.
Proof. by intros [m Hm]; exists m. Qed.

Lemma store_file_matched (U : ucd) (filepath input_dir output_dir : Path) (artist : text)
    (w : world) :
  matches U (name filepath) -> get_artist U (name filepath) = inr artist ->
  store_file U filepath input_dir output_dir w
  = match create_folder artist output_dir w with
    | (inr p, w') => move_file filepath p w'
    | (inl e, w') => (inl e, w')
    end.
Proof.
  intros [m Hm]%matches_fullmatch Ha. unfold store_file. rewrite Hm.
  unfold bind, lift. by rewrite Ha.
Qed.

Lemma parent_joinpath (dir : Path) (n : text) : plain n -> parent (joinpath dir n) = dir.
Proof. intros Hn. rewrite joinpath_plain by done. by destruct dir. Qed.

Lemma parent_resolve_joinpath (dir : Path) (n : text) :
  plain n -> parent (resolve (joinpath dir n)) = resolve dir.
Proof. intros Hn. by rewrite resolve_joinpath. Qed.

Lemma barred_joinpath (d : fs) (dir : Path) (n : text) :
  plain n ->
  barred d (resolve (joinpath dir n)) = shut_at d (resolve dir) || barred d (resolve dir).
Proof. intros Hn. by rewrite resolve_joinpath. Qed.

(** [mkdir] of a plain name in a directory that is there. *)
Lemma mkdir_parents_child (d : fs) (output_dir : Path) (artist : text) (dir : node) :
  plain artist -> d !! resolve output_dir = Some dir ->
  barred d (resolve (joinpath output_dir artist)) = false ->
  mkdir_parents true d (root (joinpath output_dir artist)) (rparts (joinpath output_dir artist))
  = match d !! resolve (joinpath output_dir artist) with
    | Some (File _) =>
        (inl (match dir with File _ => NotADirectoryError | _ => FileExistsError end), d)
    | Some _ => (inr tt, d)
    | None =>
        match dir with
        | Dir true => (inr tt, <[resolve (joinpath output_dir artist) := Dir true]> d)
        | File _ => (inl NotADirectoryError, d)
        | _ => (inl PermissionError, d)
        end
    end.
Proof.
  intros Hp Hout Hb. rewrite joinpath_plain by done. cbn [root rparts mkdir_parents].
  rewrite <- (joinpath_plain output_dir artist Hp).
  unfold os_mkdir, mkdir_except, path_is_dir. rewrite (probe_open _ _ _ Hb), Hb.
  rewrite parent_resolve_joinpath, Hout by done.
  by destruct dir as [c|[|]|], (d !! resolve (joinpath output_dir artist)) as [[| |]|].
Qed.

(** X10. A regular file that has the name of the artist folder stops the
    run: when the output directory holds a regular file under the artist
    name, [store_file] raises [FileExistsError] for a tablature of that
    artist; nothing on the disk changes and nothing is logged. *)
Theorem store_file_folder_blocked (U : ucd) (filepath input_dir output_dir : Path)
    (artist : text) (c : N) (w : world) :
  matches U (name filepath) -> get_artist U (name filepath) = inr artist ->
  plain artist ->
  is_dir_at (disk w) output_dir = true ->
  stat (disk w) (joinpath output_dir artist) = Some (File c) ->
  store_file U filepath input_dir output_dir w = (inl FileExistsError, w)
  /\ exit_status (fst (store_file U filepath input_dir output_dir w)) = 1%N.
Proof.
  intros Hm Ha Hp Hdir [Hb Hfile]%stat_Some.
  assert (create_folder artist output_dir w = (inl FileExistsError, w)) as Hc.
  { rewrite create_folder_eq. cbv zeta. unfold is_dir_at in Hdir.
    destruct (stat (disk w) output_dir) as [dir|] eqn:Hout; [|done].
    apply stat_Some in Hout as [_ Hout].
    rewrite (mkdir_parents_child _ _ _ dir), Hfile by done.
    destruct dir as [?|[|]|]; [done|..]; by destruct w. }
  rewrite (store_file_matched U _ _ _ artist) by done. by rewrite Hc.
Qed.

Lemma store_file_folder_blocked_witness :
  store_file ascii_only (parse (str "/in/Metallica - One.gp5")) (parse (str "/in"))
    (parse (str "/out")) (sample_world blocked_disk)
  = (inl FileExistsError, sample_world blocked_disk)
  /\ exit_status (fst (store_file ascii_only (parse (str "/in/Metallica - One.gp5"))
                         (parse (str "/in")) (parse (str "/out"))
                         (sample_world blocked_disk))) = 1%N.
Proof.
  apply (store_file_folder_blocked ascii_only _ _ _ (str "Metallica") 5).
  - vm_compute. by eexists.
  - vm_compute. reflexivity.
  - repeat split; intros E; vm_compute in E; intuition discriminate.
  - vm_compute. reflexivity.
  - vm_compute. reflexivity.
Defined.

(** ** Moving a file *)

Lemma stat_None (d : fs) (p : Path) : d !! resolve p = None -> stat d p = None.
Proof.
  intros H. unfold stat, os_stat. rewrite H. by destruct (barred d (resolve p)).
Qed.

Lemma stat_same (d d' : fs) (q : Path) :
  (forall a, barred d' a = barred d a) -> d' !! resolve q = d !! resolve q ->
  stat d' q = stat d q.
Proof. intros Hb Hq. unfold stat, os_stat. by rewrite Hb, Hq. Qed.

(** A move that is reported without a new name has put the file at the
    candidate path. *)
Lemma move_file_free (filepath dir : Path) (c : N) (w w' : world) :
  plain (name filepath) ->
  stat (disk w) filepath = Some (File c) ->
  exists_at (disk w) (joinpath dir (name filepath)) = false ->
  move_file filepath dir w = (inr tt, w') -> moved w' ->
  resolve filepath <> resolve (joinpath dir (name filepath))
  /\ disk w' = <[resolve (joinpath dir (name filepath)) := File c]>
                 (delete (resolve filepath) (disk w))
  /\ (forall a, barred (disk w') a = barred (disk w) a)
  /\ barred (disk w) (resolve (joinpath dir (name filepath))) = false
  /\ log w' = log w ++ [LogMoved (name filepath) dir]
  /\ ticks w' = ticks w.
Proof.
  intros Hp [Hbs Hsrc]%stat_Some Hfree Hmv Hmoved.
  destruct (move_file_moved _ _ _ _ Hmv Hmoved) as (Hr & _ & Htk).
  rewrite Hfree in Hr, Htk.
  assert (barred (disk w) (resolve (joinpath dir (name filepath))) = false) as Hbd.
  { unfold os_rename in Hr.
    by destruct (barred (disk w) (resolve filepath)),
                (barred (disk w) (resolve (joinpath dir (name filepath)))). }
  pose proof (exists_at_false _ _ Hfree Hbd) as Hdst.
  assert (resolve filepath <> resolve (joinpath dir (name filepath))) as Hne
    by (intros E; rewrite E in Hsrc; congruence).
  apply (os_rename_inr _ _ _ _ c) in Hr as (Hr & _ & _ & Hns); [|done..].
  split; [done|]. split; [done|]. split.
  { intros a. rewrite Hr. by apply (barred_rename _ _ _ _ c). }
  split; [done|]. split; [|done].
  rewrite move_file_eq in Hmv. cbv zeta in Hmv.
  unfold path_exists in Hmv. rewrite (probe_open _ _ _ Hbd), Hdst in Hmv.
  destruct (os_rename _ _ _); injection Hmv as <-; cbn [log].
  - exfalso. destruct Hmoved as (f & folder & Hl). cbn [log] in Hl.
    by rewrite last_app in Hl.
  - by rewrite parent_joinpath.
Qed.

(** X11. A move to a free name.  When the source is a regular file with a
    plain name, nothing is found under that name in the target directory and
    [move_file] reports the move, the file is at the target under its own
    name with its content, the source path is gone, every other path is as
    it was, the move is the one record logged, and the clock was not read. *)
Theorem move_file_to_free_name (filepath dir : Path) (c : N) (w w' : world) :
  plain (name filepath) ->
  stat (disk w) filepath = Some (File c) ->
  exists_at (disk w) (joinpath dir (name filepath)) = false ->
  move_file filepath dir w = (inr tt, w') -> moved w' ->
  stat (disk w') (joinpath dir (name filepath)) = Some (File c)
  /\ stat (disk w') filepath = None
  /\ (forall q, resolve q <> resolve filepath ->
        resolve q <> resolve (joinpath dir (name filepath)) ->
        stat (disk w') q = stat (disk w) q)
  /\ log w' = log w ++ [LogMoved (name filepath) dir]
  /\ ticks w' = ticks w.
Proof.
  intros Hp Hsrc Hfree Hmv Hmoved.
  destruct (move_file_free filepath dir c w w' Hp Hsrc Hfree Hmv Hmoved)
    as (Hne & Hd & Hbar & Hbd & Hlog & Htk).
  split; [|split; [|split; [|done]]].
  - apply stat_Some. split; [by rewrite Hbar|]. rewrite Hd. apply lookup_insert_eq.
  - apply stat_None. by rewrite Hd, lookup_insert_ne, lookup_delete_eq.
  - intros q H1 H2. apply stat_same; [done|].
    by rewrite Hd, lookup_insert_ne, lookup_delete_ne.
Qed.

Lemma move_file_to_free_name_witness :
  let f := parse (str "/a/X - y.txt") in
  let dir := parse (str "/out/X") in
  let w := sample_world two_inputs_disk in
  let w' := snd (move_file f dir w) in
  stat (disk w') (joinpath dir (name f)) = Some (File 1)
  /\ stat (disk w') f = None
  /\ (forall q, resolve q <> resolve f -> resolve q <> resolve (joinpath dir (name f)) ->
        stat (disk w') q = stat (disk w) q)
  /\ log w' = log w ++ [LogMoved (name f) dir]
  /\ ticks w' = ticks w.
Proof.
  intros f dir w w'. apply (move_file_to_free_name f dir 1 w w').
  - repeat split; intros E; vm_compute in E; intuition discriminate.
  - vm_compute. reflexivity.
  - vm_compute. reflexivity.
  - unfold w'. apply returns_snd. vm_compute. reflexivity.
  - exists (str "X - y.txt"), dir. vm_compute. reflexivity.
Defined.

(** ** Storing a tablature *)

(** X12. A tablature reaches its artist folder.  For a regular file with a
    plain tablature name and a plain artist name: when [store_file] returns
    and the one record it has logged is a move, the move went to the output
    directory joined with the artist name, that folder is a directory, the
    file is in it under its own name with its content, and the source path
    is gone. *)
Theorem store_file_places_file (U : ucd) (filepath input_dir output_dir folder : Path)
    (artist : text) (c : N) (w w' : world) :
  matches U (name filepath) -> plain (name filepath) ->
  get_artist U (name filepath) = inr artist -> plain artist ->
  stat (disk w) filepath = Some (File c) ->
  store_file U filepath input_dir output_dir w = (inr tt, w') ->
  log w' = log w ++ [LogMoved (name filepath) folder] ->
  folder = joinpath output_dir artist
  /\ is_dir_at (disk w') folder = true
  /\ stat (disk w') (joinpath folder (name filepath)) = Some (File c)
  /\ stat (disk w') filepath = None.
Proof.
  intros Hm Hp Ha Hpa Hsrc Hst Hlog.
  rewrite (store_file_matched U _ _ _ artist) in Hst by done.
  destruct (create_folder artist output_dir w) as [[e|p] w1] eqn:Hc; [done|].
  pose proof Hc as Hc'. rewrite create_folder_eq in Hc'. cbv zeta in Hc'.
  destruct (mkdir_parents _ _ _ _) as [[e|[]] d1] eqn:Hmk; [done|].
  cbn [fst snd] in Hc'. injection Hc' as <- <-.
  pose proof (mkdir_parents_dir _ _ _ _ _ Hmk) as Hdir.
  apply mkdir_parents_keeps in Hmk as [Hsub Hshut].
  set (p := joinpath output_dir artist) in *.
  assert (stat d1 filepath = Some (File c)) as Hsrc1 by (by eapply stat_keeps).
  (* the move did not take a new name *)
  rewrite move_file_eq in Hst. cbv zeta in Hst.
  cbn [disk log clock ticks] in Hst.
  destruct (path_exists d1 (joinpath p (name filepath))) as [e|taken] eqn:Hx; [done|].
  assert (taken = false /\ folder = p
          /\ exists d2, os_rename d1 filepath (joinpath p (name filepath)) = inr d2
                        /\ disk w' = d2) as (-> & -> & d2 & Hr & Hd2).
  { destruct taken; destruct (os_rename _ _ _) as [e|d2]; injection Hst as <-;
      cbn [log] in Hlog; apply app_inv_head in Hlog; try discriminate.
    injection Hlog as <-. rewrite parent_joinpath by done. split; [done|]. split; [done|].
    by exists d2. }
  apply path_exists_inr in Hx as [Hbd Hfree].
  pose proof (exists_at_false _ _ Hfree Hbd) as Hdst.
  apply stat_Some in Hsrc1 as [Hbs Hs1].
  assert (resolve filepath <> resolve (joinpath p (name filepath))) as Hne
    by (intros E; rewrite E in Hs1; congruence).
  apply (os_rename_inr _ _ _ _ c) in Hr as (-> & _ & _ & _); [|done..].
  assert (forall a, barred (disk w') a = barred d1 a) as Hbar.
  { intros a. rewrite Hd2. apply (barred_rename _ _ _ _ c); [done|]. by rewrite Hdst. }
  split; [done|]. split; [|split].
  - apply path_is_dir_inr.
    assert (path_is_dir d1 p = inr true) as Hdir' by (by destruct p).
    apply probe_inr in Hdir' as [Hbp Hq].
    unfold path_is_dir. rewrite probe_open by (by rewrite Hbar). rewrite Hd2.
    assert (resolve p <> resolve (joinpath p (name filepath))) as Hn1.
    { rewrite (resolve_joinpath p (name filepath) Hp). intros E.
      apply (f_equal (fun q => length (rparts q))) in E. cbn [rparts length] in E.
      destruct (resolve p). cbn in E. lia. }
    assert (resolve p <> resolve filepath) as Hn2.
    { intros E. rewrite E, Hs1 in Hq. discriminate. }
    by rewrite lookup_insert_ne, lookup_delete_ne, <- Hq.
  - apply stat_Some. split; [by rewrite Hbar|]. rewrite Hd2. apply lookup_insert_eq.
  - apply stat_None. by rewrite Hd2, lookup_insert_ne, lookup_delete_eq.
Qed.

Lemma store_file_places_file_witness :
  let f := parse (str "/in/Metallica - One.gp5") in
  let out := parse (str "/") in
  let w := sample_world sample_disk in
  let w' := snd (store_file ascii_only f (parse (str "/in")) out w) in
  parse (str "/Metallica") = joinpath out (str "Metallica")
  /\ is_dir_at (disk w') (parse (str "/Metallica")) = true
  /\ stat (disk w') (joinpath (parse (str "/Metallica")) (name f)) = Some (File 1)
  /\ stat (disk w') f = None.
Proof.
  intros f out w w'.
  apply (store_file_places_file ascii_only f (parse (str "/in")) out (parse (str "/Metallica"))
           (str "Metallica") 1 w w').
  - vm_compute. by eexists.
  - repeat split; intros E; vm_compute in E; intuition discriminate.
  - vm_compute. reflexivity.
  - repeat split; intros E; vm_compute in E; intuition discriminate.
  - vm_compute. reflexivity.
  - unfold w'. apply returns_snd. vm_compute. reflexivity.
  - vm_compute. reflexivity.
Defined.

(** ** Artist names that are not folder names *)

Lemma artist_segment_get_artist (U : ucd) (filename seg : text) :
  artist_segment filename = Some seg ->
  get_artist U filename = inr (reformat_artist U seg).
Proof.
  unfold artist_segment, get_artist. destruct (re_match artist_regex filename); [|done].
  by intros [= <-].
Qed.

(** X13. The artist name is joined to the output directory as it is.  For a
    file name whose artist segment is a single dot the artist folder is the
    output directory itself; for two dots it is the output directory
    followed by [..], which is the parent of the output directory: such a
    file is stored beside the output directory, not in it. *)
Theorem artist_dots_leave_folder (U : ucd) (filename : text) (output_dir : Path) :
  (artist_segment filename = Some dot ->
   get_artist U filename = inr dot /\ joinpath output_dir dot = output_dir)
  /\ (artist_segment filename = Some dotdot ->
      get_artist U filename = inr dotdot
      /\ joinpath output_dir dotdot = mkPath (root output_dir) (dotdot :: rparts output_dir)
      /\ forall x up, rparts (resolve output_dir) = x :: up -> x <> dotdot ->
           resolve (joinpath output_dir dotdot) = parent (resolve output_dir)).
Proof.
  split; intros H; rewrite (artist_segment_get_artist U _ _ H).
  - split; [reflexivity|]. by destruct output_dir.
  - split; [reflexivity|]. split; [reflexivity|].
    intros x up E Hx.
    assert (joinpath output_dir dotdot = mkPath (root output_dir) (dotdot :: rparts output_dir))
      as -> by reflexivity.
    unfold resolve, parent in *. cbn [root rparts] in *. f_equal.
    change (resolve_parts (negb (root output_dir =? 0)%N) (dotdot :: rparts output_dir))
      with (match resolve_parts (negb (root output_dir =? 0)%N) (rparts output_dir) with
            | [] => if negb (root output_dir =? 0)%N then [] else [dotdot]
            | x :: r' =>
                if bool_decide (x = dotdot)
                then dotdot :: resolve_parts (negb (root output_dir =? 0)%N) (rparts output_dir)
                else r'
            end).
    rewrite E. by rewrite bool_decide_eq_false_2.
Qed.

Lemma artist_dots_leave_folder_witness :
  get_artist ascii_only (str ".. - x.txt") = inr dotdot
  /\ joinpath (parse (str "/music/out")) dotdot
     = mkPath (root (parse (str "/music/out"))) (dotdot :: rparts (parse (str "/music/out")))
  /\ forall x up, rparts (resolve (parse (str "/music/out"))) = x :: up -> x <> dotdot ->
       resolve (joinpath (parse (str "/music/out")) dotdot)
       = parent (resolve (parse (str "/music/out"))).
Proof.
  apply (proj2 (artist_dots_leave_folder ascii_only (str ".. - x.txt") (parse (str "/music/out")))).
  reflexivity.
Defined.

Example dotdot_artist_run :
  let r := organize_tabs ascii_only (str "/music/in") (str "/music/out")
             (sample_world dots_disk) in
  fst r = inr tt
  /\ stat (disk (snd r)) (parse (str "/music/.. - x.txt")) = Some (File 1)
  /\ stat (disk (snd r)) (parse (str "/music/in/.. - x.txt")) = None
  /\ listdir (disk (snd r)) (parse (str "/music/out")) = [].
Proof. vm_compute. repeat split. Qed.

(** ** The records of a file *)

(** X14. What [store_file] logs.  When it returns, it has appended the
    records of its file and no other: the skip warning; or the outcome of the
    move, moved or failed; or, after a collision, the record of the new name
    followed by the outcome.  When it raises, nothing was logged and no file
    was moved: what was on the disk is there as it was (folders made before
    the failure stay). *)
Theorem store_file_records (U : ucd) (filepath input_dir output_dir : Path)
    (w w' : world) (r : exn + unit) :
  store_file U filepath input_dir output_dir w = (r, w') ->
  (r = inr tt /\ exists evs, log w' = log w ++ evs /\ file_records (name filepath) evs)
  \/ (exists e, r = inl e /\ log w' = log w
                /\ forall q n, stat (disk w) q = Some n -> stat (disk w') q = Some n).
Proof.
  unfold store_file.
  destruct (re_fullmatch (tablature_regex U) (name filepath)) as [m|].
  - unfold bind, lift. destruct (get_artist U (name filepath)) as [e|artist].
    { intros [= <- <-]. right. by exists e. }
    rewrite create_folder_eq. cbv zeta.
    destruct (mkdir_parents _ _ _ _) as [[e|[]] d] eqn:Hmk; cbn [fst snd];
      apply mkdir_parents_keeps in Hmk as [Hsub Hshut].
    { intros [= <- <-]. right. exists e. split; [done|]. split; [done|].
      intros q n. by apply stat_keeps. }
    rewrite move_file_eq. cbv zeta. cbn [disk log clock ticks].
    destruct (path_exists d _) as [e|taken].
    { intros [= <- <-]. right. exists e. split; [done|]. split; [done|].
      intros q n. by apply stat_keeps. }
    destruct taken; destruct (os_rename d _ _) as [e|d'];
      intros [= <- <-]; left; (split; [done|]); cbn [log]; eexists; (split; [reflexivity|]).
    + right. right. eexists _, _. split; [reflexivity|]. right. by eexists _, _.
    + right. right. eexists _, _. split; [reflexivity|]. left. by eexists.
    + right. left. eexists. split; [reflexivity|]. right. by eexists _, _.
    + right. left. eexists. split; [reflexivity|]. left. by eexists.
  - intros [= <- <-]. left. split; [done|]. eexists. split; [reflexivity|]. by left.
Qed.

Lemma store_file_records_witness :
  let w := sample_world collision_disk in
  let r := store_file ascii_only (parse (str "/in/Metallica - One.gp5")) (parse (str "/in"))
             (parse (str "/out")) w in
  (fst r = inr tt
   /\ exists evs, log (snd r) = log w ++ evs
                  /\ file_records (name (parse (str "/in/Metallica - One.gp5"))) evs)
  \/ (exists e, fst r = inl e /\ log (snd r) = log w
                /\ forall q n, stat (disk w) q = Some n -> stat (disk (snd r)) q = Some n).
Proof.
  intros w r.
  apply (store_file_records ascii_only (parse (str "/in/Metallica - One.gp5"))
           (parse (str "/in")) (parse (str "/out")) w).
  apply surjective_pairing.
Defined.

Example store_file_two_records :
  log (snd (store_file ascii_only (parse (str "/in/Metallica - One.gp5")) (parse (str "/in"))
              (parse (str "/out")) (sample_world collision_disk)))
  = [LogExists (str "Metallica - One.gp5") (str "Metallica - One_07032024_090500.gp5");
     LogMoved (str "Metallica - One.gp5") (parse (str "/out/Metallica"))].
Proof. vm_compute. reflexivity. Qed.
